(** * The CNDP Unix-domain-socket server of pkg/cndp/cndp.go

    A shallow embedding of the per-allocation UDS server: the request
    parsing, the pod-hostname validation against the pod resources
    table, the session loop and the socket path generator, followed by
    the properties of the specification that are stated about them. *)

From stdpp Require Import gmap strings list fin_maps.
From Stdlib Require Import ZArith Lia Ascii.

Local Open Scope string_scope.
Local Open Scope Z_scope.
Local Open Scope list_scope.

(** ** Constants of the protocol *)

Definition handshakeVersion : string := "0.1".
Definition requestVersion : string := "/version".

Definition requestConnect : string := "/connect".
Definition responseHostOk : string := "/host_ok".
Definition responseHostNak : string := "/host_nak".

Definition requestFd : string := "/xsk_map_fd".
Definition responseFdAck : string := "/fd_ack".
Definition responseFdNak : string := "/fd_nak".

Definition requestFin : string := "/fin".
Definition responseFinAck : string := "/fin_ack".

Definition responseBadRequest : string := "/nak".
Definition responseNotImplemented : string := "/nak".
Definition responseError : string := "/error".

Definition udsBufSize : nat := 64.
Definition usdSockDir : string := "/tmp/".

(** ** The functions of Go's [strings] package used by the server

    Go strings are byte sequences and so are Rocq's.  The server calls
    these functions with a non-empty constant second argument only
    (a request token, [","] or [" "]); the definitions follow the
    library's behaviour for such arguments. *)

Module strings.

Fixpoint HasPrefix (s prefix : string) : bool :=
  match prefix, s with
  | EmptyString, _ => true
  | String _ _, EmptyString => false
  | String b prefix', String a s' =>
      if Ascii.eqb a b then HasPrefix s' prefix' else false
  end.

(** [Contains s substr]: [substr] occurs at some offset of [s]. *)
Fixpoint Contains (s substr : string) : bool :=
  HasPrefix s substr ||
  match s with
  | EmptyString => false
  | String _ s' => Contains s' substr
  end.

(** The scan shared by [Split] and [ReplaceAll].  [skip] counts the
    bytes of an occurrence of [sep] that are still to be stepped
    over, [cur] is the piece read so far, in reverse. *)
Fixpoint pieces (sep : string) (s : string) (skip : nat) (cur : string)
  : list string :=
  match s with
  | EmptyString => [String.rev cur]
  | String a s' =>
      match skip with
      | S k => pieces sep s' k cur
      | O =>
          if HasPrefix s sep
          then String.rev cur :: pieces sep s' (Nat.pred (String.length sep)) EmptyString
          else pieces sep s' O (String a cur)
      end
  end.

(** [Split s sep]: the substrings of [s] between the occurrences of
    [sep], one more than there are occurrences. *)
Definition Split (s sep : string) : list string := pieces sep s O EmptyString.

Fixpoint Join (elems : list string) (sep : string) : string :=
  match elems with
  | [] => EmptyString
  | [e] => e
  | e :: rest => e +:+ sep +:+ Join rest sep
  end.

(** [ReplaceAll s old new]: every non-overlapping occurrence of [old]
    replaced by [new]. *)
Definition ReplaceAll (s old new : string) : string := Join (Split s old) new.

End strings.

(** ** Data model *)

(** A Go [error] as the server inspects it: only whether it is a
    [net.Error] whose [Timeout()] holds matters, and only for the log. *)
Inductive error : Type :=
| ErrTimeout
| ErrOther.

(** The messages of the pod resources API (v1alpha1) that
    [validateHost] reads, with the generated getters as projections. *)
Record ContainerDevices : Type := {
  GetResourceName : string;
  GetDeviceIds : list string
}.

Record ContainerResources : Type := {
  GetContainerName : string;
  GetDevices : list ContainerDevices
}.

Record PodResources : Type := {
  GetName : string;
  GetNamespace : string;
  GetContainers : list ContainerResources
}.

Record ListPodResourcesResponse : Type := {
  GetPodResources : list PodResources
}.

(** [udsServer]: the fields that hold data.  [conn] and [udsFD] are
    handles of the accepted connection; what is read from and written
    to them is in the [Host] below.  A Go [int] file descriptor is a
    [Z]; the server compares it with zero and hands it to
    [syscall.UnixRights], which keeps 32 bits of it. *)
Record udsServer : Type := {
  socket : string;
  timeout : bool;
  deviceType : string;
  devices : gmap string Z
}.

(** [AddDevice]: [server.devices[dev] = fd]. *)
Definition AddDevice (server : udsServer) (dev : string) (fd : Z) : udsServer :=
  {| socket := socket server;
     timeout := timeout server;
     deviceType := deviceType server;
     devices := <[dev := fd]> (devices server) |}.

(** ** Identity validation: [validateHost] *)

(** Where the scan of the device groups stands: it has returned
    [true], or it goes on with the current value of [valid]. *)
Inductive scan : Type :=
| ReturnTrue
| Continue (valid : bool).

(** The loop over [device.GetDeviceIds()].  Its [continue] is the last
    statement of the body, so every identifier is visited and each one
    overwrites [valid]. *)
Fixpoint compareDevices (known : gmap string Z) (ids : list string) (valid : bool) : bool :=
  match ids with
  | [] => valid
  | dev :: ids' =>
      match known !! dev with
      | Some _ => compareDevices known ids' true
      | None => compareDevices known ids' false
      end
  end.

(** The loop over [container.GetDevices()]. *)
Fixpoint scanDevices (server : udsServer) (devs : list ContainerDevices) (valid : bool) : scan :=
  match devs with
  | [] => Continue valid
  | device :: devs' =>
      if bool_decide (GetResourceName device ≠ deviceType server)
         || bool_decide (length (GetDeviceIds device) ≠ size (devices server))
      then scanDevices server devs' valid
      else
        let valid' := compareDevices (devices server) (GetDeviceIds device) valid in
        if valid' then ReturnTrue else scanDevices server devs' valid'
  end.

(** The loop over [pod.GetContainers()]. *)
Fixpoint scanContainers (server : udsServer) (cs : list ContainerResources) (valid : bool) : scan :=
  match cs with
  | [] => Continue valid
  | container :: cs' =>
      match scanDevices server (GetDevices container) valid with
      | ReturnTrue => ReturnTrue
      | Continue valid' => scanContainers server cs' valid'
      end
  end.

(** [podResourceMap]: the pods indexed by name, a later pod replacing
    an earlier one of the same name. *)
Definition podResourceMap (resp : ListPodResourcesResponse) : gmap string PodResources :=
  foldl (fun m pod => <[GetName pod := pod]> m) ∅ (GetPodResources resp).

(** [validateHost], given what [getPodResources] returned. *)
Definition validateHost (server : udsServer)
    (podResources : ListPodResourcesResponse + error) (hostname : string)
  : bool * option error :=
  match podResources with
  | inr err => (false, Some err)
  | inl resp =>
      match podResourceMap resp !! hostname with
      | None => (false, None)
      | Some pod =>
          match scanContainers server (GetContainers pod) false with
          | ReturnTrue => (true, None)
          | Continue _ => (false, None)
          end
      end
  end.

(** ** The connection: what the server observes and what it does *)

(** What one call of [server.read] obtains: the record sent by the peer
    or the error of [SetDeadline] or [Recvmsg]. *)
Definition recv : Type := string + error.

(** The calls that the properties below speak about, in program order. *)
Inductive event : Type :=
| Read (request : string) (err : option error)
    (* [server.read()] returned [(request, err)] *)
| Validate (hostname : string)
    (* [server.validateHost(hostname)] was called *)
| Sendmsg (response : string) (rights : option Z) (err : option error).
    (* [syscall.Sendmsg] of [response], with the descriptor of the
       control message when there is one, and what it returned *)

(** How a run of the server's goroutine ends: the function returns (the
    deferred calls close connection and listener), an index is out of
    range (a run-time panic, which nothing recovers), or the goroutine
    stays blocked in a read that never completes. *)
Inductive result (A : Type) : Type :=
| Ok (a : A)
| Panic
| Blocked.
Arguments Ok {A} a.
Arguments Panic {A}.
Arguments Blocked {A}.

(** A computation on the connection: it consumes the outcomes of the
    [Sendmsg] calls it makes (an exhausted list means success) and
    produces its events. *)
Definition M (A : Type) : Type :=
  list (option error) -> result A * list event * list (option error).

Definition ret {A : Type} (a : A) : M A := fun sends => (Ok a, [], sends).

Definition bind {A B : Type} (m : M A) (f : A -> M B) : M B := fun sends =>
  match m sends with
  | (Ok a, evs, sends') =>
      match f a sends' with
      | (r, evs', sends'') => (r, (evs ++ evs')%list, sends'')
      end
  | (Panic, evs, sends') => (Panic, evs, sends')
  | (Blocked, evs, sends') => (Blocked, evs, sends')
  end.

Notation "'let*' x ':=' m 'in' k" := (bind m (fun x => k))
  (at level 10, x pattern, m at level 100, k at level 200, only parsing).

Definition emit (e : event) : M unit := fun sends => (Ok tt, [e], sends).

Definition panic {A : Type} : M A := fun sends => (Panic, [], sends).

Definition block {A : Type} : M A := fun sends => (Blocked, [], sends).

(** [s[i]] on a slice: out of range is a run-time panic. *)
Definition index {A : Type} (s : list A) (i : nat) : M A :=
  match s !! i with
  | Some a => ret a
  | None => panic
  end.

(** [syscall.Sendmsg(server.udsFD, []byte(response), rights, nil, 0)]. *)
Definition sendmsg (response : string) (rights : option Z) : M (option error) :=
  fun sends =>
    match sends with
    | [] => (Ok None, [Sendmsg response rights None], [])
    | err :: sends' => (Ok err, [Sendmsg response rights err], sends')
    end.

(** [server.read], given what the connection delivers: the request is
    the first [udsBufSize] bytes of the record. *)
Definition read (r : recv) : M (string * option error) :=
  let res :=
    match r with
    | inl msg => (String.substring 0 udsBufSize msg, None)
    | inr err => (EmptyString, Some err)
    end in
  let* _ := emit (Read res.1 res.2) in ret res.

(** [int32(x)]: the conversion of a Go [int] to 32 bits, in two's
    complement. *)
Definition int32 (x : Z) : Z := (x + 2 ^ 31) mod 2 ^ 32 - 2 ^ 31.

(** [syscall.UnixRights(fd)]: the control message for one descriptor,
    which it stores as [int32(fd)]; it is that descriptor that the
    peer receives. *)
Definition UnixRights (fd : Z) : Z := int32 fd.

(** [server.writeWithFD]. *)
Definition writeWithFD (response : string) (fd : Z) : M (option error) :=
  if 0 <? fd then
    let rights := UnixRights fd in
    sendmsg response (Some rights)
  else
    sendmsg response None.

(** [server.write]. *)
Definition write (response : string) : M (option error) :=
  writeWithFD response (-1).

(** [server.handleXskRequest]. *)
Definition handleXskRequest (server : udsServer) (request : string) : M (option error) :=
  let s := strings.Split request "," in
  let* s1 := index s 1 in
  let iface := strings.ReplaceAll s1 " " "" in
  match devices server !! iface with
  | Some fd => writeWithFD responseFdAck fd
  | None => write responseFdNak
  end.

(** ** The session: [start] *)

(** What surrounds the accepted connection: the outcome of each call
    that sets the listener up, the answer of the pod resources API, the
    records the peer sends and the outcomes of the server's sends. *)
Record Host : Type := {
  resolveUnixAddr : option error;
  listenUnix : option error;
  setDeadline : option error;
  acceptUnix : option error;
  connFile : option error;
  getPodResources : ListPodResourcesResponse + error;
  inbound : list recv;
  sends : list (option error)
}.

(** The first request: "first request should validate hostname".
    Returns [connected]. *)
Definition connect (server : udsServer) (host : Host) (request : string) : M bool :=
  if strings.Contains request requestConnect then
    let s := strings.Split request "," in
    let* s1 := index s 1 in
    let hostname := strings.ReplaceAll s1 " " "" in
    let* _ := emit (Validate hostname) in
    let '(valid, err) := validateHost server (getPodResources host) hostname in
    let* _ := match err with
              | Some _ => let* _ := write responseError in ret tt
              | None => ret tt
              end in
    if valid then
      let* _ := write responseHostOk in ret true
    else
      let* _ := write responseHostNak in ret false
  else ret false.

(** The [switch] of the loop.  Returns [err] and the new value of
    [connected], which was [true]. *)
Definition handle (server : udsServer) (request : string) : M (option error * bool) :=
  if strings.Contains request requestFd then
    let* err := handleXskRequest server request in ret (err, true)
  else if bool_decide (request = requestVersion) then
    let* err := write handshakeVersion in ret (err, true)
  else if bool_decide (request = requestFin) then
    let* err := write responseFinAck in ret (err, false)
  else
    let* err := write responseBadRequest in ret (err, true).

(** [for connected { ... }], entered with [connected] true, on the
    records that are still to come. *)
Fixpoint serve (server : udsServer) (inbound : list recv) : M unit :=
  match inbound with
  | [] => block
  | r :: inbound' =>
      let* (request, err) := read r in
      match err with
      | Some _ => ret tt
      | None =>
          let* (err, connected) := handle server request in
          match err with
          | Some _ => ret tt
          | None => if connected then serve server inbound' else ret tt
          end
      end
  end.

(** The accepted connection, from the first read on. *)
Definition session (server : udsServer) (host : Host) : M unit :=
  match inbound host with
  | [] => block
  | r :: inbound' =>
      let* (request, err) := read r in
      match err with
      | Some _ => ret tt
      | None =>
          let* connected := connect server host request in
          if connected then serve server inbound' else ret tt
      end
  end.

(** [server.start]: how the run ends, and its events. *)
Definition start (server : udsServer) (host : Host) : result unit * list event :=
  match resolveUnixAddr host with
  | Some _ => (Ok tt, [])
  | None =>
  match listenUnix host with
  | Some _ => (Ok tt, [])
  | None =>
  match (if timeout server then setDeadline host else None) with
  | Some _ => (Ok tt, [])
  | None =>
  match acceptUnix host with
  | Some _ => (Ok tt, [])
  | None =>
  match connFile host with
  | Some _ => (Ok tt, [])
  | None => (session server host (sends host)).1
  end end end end end.

(** ** The path generator: [generateSocketPath] *)

(** One turn of the generator's loop as the outside world answers it:
    what [uuid.NewV4] returns (the text of the UUID, which gouuid
    allocates before it reads the random bytes and returns also when
    the read fails, and the error) and what [os.IsNotExist] says of the
    error of [os.Stat] on a path at that moment. *)
Record attempt : Type := {
  NewV4 : string * option error;
  IsNotExist : string -> bool
}.

Inductive genEvent : Type :=
| Generate (sockName : string) (err : option error)   (* [uuid.NewV4()] returned *)
| Errorf (err : error)                                (* the failure is logged *)
| Stat (sockPath : string) (notExist : bool)          (* the check on the file system *)
| Regenerating (sockPath : string).                   (* "already exists. Regenerating." *)

(** The path tried in a turn. *)
Definition sockPathOf (a : attempt) : string :=
  usdSockDir +:+ (NewV4 a).1 +:+ ".sock".

(** [generateSocketPath] on the turns the world allows it: the events
    of the loop and the path returned, [None] when every turn of the
    list found its path taken (the loop has no bound of its own). *)
Fixpoint generateSocketPath (turns : list attempt) : list genEvent * option string :=
  match turns with
  | [] => ([], None)
  | a :: turns' =>
      let '(sockName, err) := NewV4 a in
      let errlog := match err with Some e => [Errorf e] | None => [] end in
      let sockPath := usdSockDir +:+ sockName +:+ ".sock" in
      if IsNotExist a sockPath then
        ((Generate sockName err :: errlog ++ [Stat sockPath true])%list, Some sockPath)
      else
        let '(evs, res) := generateSocketPath turns' in
        ((Generate sockName err :: errlog
            ++ [Stat sockPath false; Regenerating sockPath] ++ evs)%list, res)
  end.

(** The number of calls of [uuid.NewV4] in a run. *)
Fixpoint generations (evs : list genEvent) : nat :=
  match evs with
  | [] => O
  | Generate _ _ :: evs' => S (generations evs')
  | _ :: evs' => generations evs'
  end.

(** The failures of [uuid.NewV4] that a run logs. *)
Fixpoint logged (evs : list genEvent) : list error :=
  match evs with
  | [] => []
  | Errorf e :: evs' => e :: logged evs'
  | _ :: evs' => logged evs'
  end.

(** ** Creating a server: [CreateUdsServer] *)

(** [CreateUdsServer], on the turns the world allows the path
    generator: the server and the path of its socket, [None] when the
    generator does not return within these turns. *)
Definition CreateUdsServer (deviceType : string) (turns : list attempt)
  : list genEvent * option (udsServer * string) :=
  let '(evs, res) := generateSocketPath turns in
  (evs,
   match res with
   | Some socket =>
       let server := {| socket := socket;
                        timeout := false;
                        deviceType := deviceType;
                        devices := ∅ |} in
       Some (server, socket)
   | None => None
   end).

(** ** Reading the validator *)

(** The device group that makes [validateHost] return [true]: it
    passes the pre-filter and its last identifier is registered. *)
Definition accepts (server : udsServer) (device : ContainerDevices) : Prop :=
  GetResourceName device = deviceType server
  /\ length (GetDeviceIds device) = size (devices server)
  /\ exists ids dev,
      GetDeviceIds device = (ids ++ [dev])%list
      /\ is_Some (devices server !! dev).

(** ** Reading a trace *)

(** How a run of the authenticated loop reads: every request read is
    answered by one [Sendmsg] before the next read; the loop goes on
    only after a send without error; a run that is blocked has answered
    every request, a panic leaves the last request unanswered, a failed
    read is the last event. *)
Inductive answered : result unit -> list event -> Prop :=
| answered_blocked :
    answered Blocked []
| answered_read_error err :
    answered (Ok tt) [Read EmptyString (Some err)]
| answered_panic request :
    answered Panic [Read request None]
| answered_last request response rights err :
    answered (Ok tt) [Read request None; Sendmsg response rights err]
| answered_next r request response rights evs :
    answered r evs ->
    answered r (Read request None :: Sendmsg response rights None :: evs).

(** The names on which [validateHost] was called in a run. *)
Fixpoint validated (evs : list event) : list string :=
  match evs with
  | [] => []
  | Validate hostname :: evs' => hostname :: validated evs'
  | _ :: evs' => validated evs'
  end.

(** The requests that [read] returned in a run. *)
Fixpoint requests (evs : list event) : list string :=
  match evs with
  | [] => []
  | Read request _ :: evs' => request :: requests evs'
  | _ :: evs' => requests evs'
  end.

(** The replies of a run: what was sent, with or without a descriptor. *)
Fixpoint replies (evs : list event) : list (string * option Z) :=
  match evs with
  | [] => []
  | Sendmsg response rights _ :: evs' => (response, rights) :: replies evs'
  | _ :: evs' => replies evs'
  end.

(** ** Concrete servers and tables

    A server built by [AddDevice] from the devices given, and a table in
    which the pod resources API reports one group for pod [podA]. *)
Definition exampleServer (devs : list (string * Z)) : udsServer :=
  foldl (fun server d => AddDevice server d.1 d.2)
    {| socket := "/tmp/0.sock"; timeout := false; deviceType := "net"; devices := ∅ |}
    devs.

Definition exampleTable (ids : list string) : ListPodResourcesResponse :=
  {| GetPodResources :=
       [ {| GetName := "podA"; GetNamespace := "default";
            GetContainers :=
              [ {| GetContainerName := "app";
                   GetDevices := [ {| GetResourceName := "net"; GetDeviceIds := ids |} ] |} ] |} ] |}.

(** ** Reading a run *)

(** The outcome of the next [Sendmsg]. *)
Definition nextErr (sends : list (option error)) : option error :=
  match sends with
  | [] => None
  | err :: _ => err
  end.

(** [after evs m]: the events [evs] have happened, then [m] runs. *)
Definition after {A : Type} (evs : list event) (m : M A) : M A := fun sends =>
  match m sends with
  | (r, evs', sends') => (r, (evs ++ evs')%list, sends')
  end.

(** A connection was accepted: listener, accept and the socket's file
    raised no error, so that [start] reaches its first read. *)
Definition accepted (server : udsServer) (host : Host) : Prop :=
  resolveUnixAddr host = None /\ listenUnix host = None
  /\ (timeout server = true -> setDeadline host = None)
  /\ acceptUnix host = None /\ connFile host = None.

(** What a request names: [s[1]] of the split at the commas, without
    its spaces, as [start] and [handleXskRequest] compute it. *)
Definition named (request name : string) : Prop :=
  exists s1, strings.Split request "," !! 1%nat = Some s1
             /\ name = strings.ReplaceAll s1 " " "".

(** What [handle] does with a request: one [Sendmsg], with a descriptor
    only for a request that names a registered interface whose
    descriptor is positive, and then the descriptor that [UnixRights]
    makes of it, or a panic before anything is sent. *)
Inductive handled (server : udsServer) (request : string) (sends : list (option error))
  : result (option error * bool) * list event * list (option error) -> Prop :=
| handled_fd iface fd :
    strings.Contains request requestFd = true ->
    named request iface -> devices server !! iface = Some fd -> 0 < fd ->
    handled server request sends
      (Ok (nextErr sends, true),
       [Sendmsg responseFdAck (Some (UnixRights fd)) (nextErr sends)], tail sends)
| handled_plain response connected :
    handled server request sends
      (Ok (nextErr sends, connected),
       [Sendmsg response None (nextErr sends)], tail sends)
| handled_panic :
    handled server request sends (Panic, [], sends).

(** A reply with the descriptor [fd] attached, sent after the events
    [pre], is granted: it is [/fd_ack], and the event just before it is
    the read of a descriptor request that names an interface
    registered with a positive descriptor, of which [fd] is what
    [UnixRights] carries. *)
Definition granted (server : udsServer) (pre : list event) (response : string) (fd : Z)
  : Prop :=
  response = responseFdAck
  /\ exists pre' request iface registered,
      pre = (pre' ++ [Read request None])%list
      /\ strings.Contains request requestFd = true
      /\ named request iface
      /\ devices server !! iface = Some registered
      /\ 0 < registered
      /\ fd = UnixRights registered.

(** A connect request in the words of the specification, "<connect-token>,
    <identity>": the connect token first, then a comma and the
    identity.  The code does not use it: [start] looks for the token
    anywhere in the request. *)
Definition specConnectRequest (request : string) : Prop :=
  exists identity, request = requestConnect +:+ "," +:+ identity.

(** A host on which everything but the peer behaves. *)
Definition exampleHost (podResources : ListPodResourcesResponse + error)
    (inbound : list recv) : Host :=
  {| resolveUnixAddr := None; listenUnix := None; setDeadline := None;
     acceptUnix := None; connFile := None;
     getPodResources := podResources; inbound := inbound; sends := [] |}.


(** * Properties *)

(** ** Splitting *)

Section Strings.
Import strings.

Lemma Contains_tail a s substr :
  Contains (String a s) substr = false -> Contains s substr = false.
Proof.
  cbn [Contains]. intros H. apply orb_false_iff in H. tauto.
Qed.

Lemma Contains_head s substr :
  Contains s substr = false -> HasPrefix s substr = false.
Proof.
  destruct s; cbn [Contains]; intros H; apply orb_false_iff in H; tauto.
Qed.

Lemma pieces_no_sep sep s cur :
  Contains s sep = false -> pieces sep s O cur = [String.rev_app cur s].
Proof.
  revert cur. induction s as [|a s IH]; intros cur H.
  - reflexivity.
  - cbn [pieces]. rewrite (Contains_head _ _ H).
    rewrite IH by (eapply Contains_tail; eassumption). reflexivity.
Qed.

(** Without a separator in it the string is the only piece. *)
Lemma Split_no_sep s sep : Contains s sep = false -> Split s sep = [s].
Proof. intros H. unfold Split. now rewrite pieces_no_sep. Qed.

Lemma Split_no_second s sep : Contains s sep = false -> Split s sep !! 1%nat = None.
Proof. intros H. now rewrite Split_no_sep. Qed.

End Strings.

(** ** The validator *)

Section Validator.
Variable server : udsServer.

(** After the scan of a non-empty group [valid] is what the last
    identifier made it. *)
Lemma compareDevices_last ids dev valid :
  compareDevices (devices server) (ids ++ [dev]) valid
  = bool_decide (is_Some (devices server !! dev)).
Proof.
  revert valid. induction ids as [|d ids IH]; intros valid; cbn.
  - destruct (devices server !! dev); reflexivity.
  - destruct (devices server !! d); apply IH.
Qed.

(** A group that passes the pre-filter is accepted as soon as its last
    identifier is registered, whatever the identifiers before it. *)
Lemma scanDevices_last_identifier device devs ids dev valid :
  GetResourceName device = deviceType server ->
  length (GetDeviceIds device) = size (devices server) ->
  GetDeviceIds device = ids ++ [dev] ->
  is_Some (devices server !! dev) ->
  scanDevices server (device :: devs) valid = ReturnTrue.
Proof.
  intros Hname Hlen Hids Hdev. cbn [scanDevices].
  rewrite (bool_decide_eq_false_2 _) by (intros H; now apply H).
  rewrite (bool_decide_eq_false_2 _) by (intros H; now apply H).
  cbn [orb]. rewrite Hids, compareDevices_last.
  now rewrite (bool_decide_eq_true_2 _ Hdev).
Qed.

Lemma podResourceMap_fold pods (m : gmap string PodResources) hostname :
  hostname ∉ map GetName pods ->
  foldl (fun m pod => <[GetName pod := pod]> m) m pods !! hostname = m !! hostname.
Proof.
  revert m. induction pods as [|pod pods IH]; intros m H; cbn.
  - reflexivity.
  - cbn in H. apply not_elem_of_cons in H as [Hne Hnot].
    rewrite IH by assumption. now rewrite lookup_insert_ne.
Qed.

Lemma podResourceMap_absent resp hostname :
  hostname ∉ map GetName (GetPodResources resp) ->
  podResourceMap resp !! hostname = None.
Proof.
  intros H. unfold podResourceMap. rewrite podResourceMap_fold by assumption.
  apply lookup_empty.
Qed.

(** C4: an identity that no pod of the table returned by the pod
    resources API bears is not entitled, and that is a verdict, not an
    error: [validateHost] returns [(false, nil)]. *)
Theorem validateHost_absent_not_entitled resp hostname :
  hostname ∉ map GetName (GetPodResources resp) ->
  validateHost server (inl resp) hostname = (false, None).
Proof.
  intros H. unfold validateHost. now rewrite podResourceMap_absent.
Qed.

End Validator.

Lemma validateHost_absent_not_entitled_witness :
  ("podB" ∉ map GetName (GetPodResources (exampleTable ["eth1"])))
  /\ validateHost (exampleServer [("eth1", 7)]) (inl (exampleTable ["eth1"])) "podB" = (false, None).
Proof.
  assert (H : "podB" ∉ map GetName (GetPodResources (exampleTable ["eth1"]))).
  { cbn. intros Hin. apply list_elem_of_singleton in Hin. discriminate Hin. }
  split; [exact H | exact (validateHost_absent_not_entitled _ _ _ H)].
Defined.

(** C1: the group [eth9, eth1] passes the pre-filter of a server that
    holds [eth1] and [eth2] (same label, two identifiers), [eth9] is no
    key of the registry, and yet [validateHost] returns [(true, nil)]:
    the last identifier of the group decides alone. *)
Theorem validateHost_entitles_on_last_identifier :
  "net" = deviceType (exampleServer [("eth1", 7); ("eth2", 8)])
  /\ length ["eth9"; "eth1"] = size (devices (exampleServer [("eth1", 7); ("eth2", 8)]))
  /\ devices (exampleServer [("eth1", 7); ("eth2", 8)]) !! "eth9" = None
  /\ validateHost (exampleServer [("eth1", 7); ("eth2", 8)])
       (inl (exampleTable ["eth9"; "eth1"])) "podA" = (true, None).
Proof. vm_compute. repeat split. Qed.

(** ** The transport *)

Section Transport.

Lemma sendmsg_run response rights sends :
  sendmsg response rights sends
  = (Ok (nextErr sends), [Sendmsg response rights (nextErr sends)], tail sends).
Proof. destruct sends; reflexivity. Qed.

Lemma writeWithFD_run response fd sends :
  writeWithFD response fd sends
  = (Ok (nextErr sends),
     [Sendmsg response (if 0 <? fd then Some (UnixRights fd) else None) (nextErr sends)],
     tail sends).
Proof. unfold writeWithFD. destruct (0 <? fd); apply sendmsg_run. Qed.

(** A positive descriptor that fits 32 bits is carried as it is. *)
Lemma UnixRights_small fd : 0 < fd -> fd < 2 ^ 31 -> UnixRights fd = fd.
Proof.
  intros Hpos Hlt. unfold UnixRights, int32.
  rewrite Z.mod_small by lia. lia.
Qed.

Lemma write_run response sends :
  write response sends
  = (Ok (nextErr sends), [Sendmsg response None (nextErr sends)], tail sends).
Proof. unfold write. now rewrite writeWithFD_run. Qed.

Lemma read_run r sends :
  read r sends
  = match r with
    | inl msg => (Ok (String.substring 0 udsBufSize msg, None),
                  [Read (String.substring 0 udsBufSize msg) None], sends)
    | inr err => (Ok (EmptyString, Some err), [Read EmptyString (Some err)], sends)
    end.
Proof. destruct r; reflexivity. Qed.

Lemma bind_run {A B} (m : M A) (f : A -> M B) sends a evs sends' :
  m sends = (Ok a, evs, sends') ->
  bind m f sends = after evs (f a) sends'.
Proof. intros H. unfold bind, after. now rewrite H. Qed.

Lemma bind_panic {A B} (m : M A) (f : A -> M B) sends evs sends' :
  m sends = (Panic, evs, sends') ->
  bind m f sends = (Panic, evs, sends').
Proof. intros H. unfold bind. now rewrite H. Qed.

Lemma after_ret {A} evs (a : A) sends :
  after evs (ret a) sends = (Ok a, evs, sends).
Proof. unfold after, ret. now rewrite app_nil_r. Qed.

End Transport.

(** ** The dispatch of a request *)

Section Dispatch.
Variable server : udsServer.

Lemma index_run {A} (s : list A) i a sends :
  s !! i = Some a -> index s i sends = (Ok a, [], sends).
Proof. intros H. unfold index. now rewrite H. Qed.

Lemma index_panic {A} (s : list A) i sends :
  s !! i = None -> index s i sends = (@Panic A, [], sends).
Proof. intros H. unfold index. now rewrite H. Qed.

(** A descriptor request that names [iface]. *)
Lemma handleXskRequest_run request iface sends :
  named request iface ->
  handleXskRequest server request sends
  = (Ok (nextErr sends),
     [match devices server !! iface with
      | Some fd =>
          Sendmsg responseFdAck (if 0 <? fd then Some (UnixRights fd) else None)
            (nextErr sends)
      | None => Sendmsg responseFdNak None (nextErr sends)
      end],
     tail sends).
Proof.
  intros (s1 & Hs1 & ->). unfold handleXskRequest.
  rewrite (bind_run _ _ _ _ _ _ (index_run _ _ _ _ Hs1)).
  unfold after.
  destruct (devices server !! _) as [fd|].
  - now rewrite writeWithFD_run.
  - now rewrite write_run.
Qed.

Lemma handleXskRequest_panic request sends :
  strings.Contains request "," = false ->
  handleXskRequest server request sends = (Panic, [], sends).
Proof.
  intros H. unfold handleXskRequest.
  apply bind_panic, index_panic, Split_no_second, H.
Qed.

Lemma handle_handled request sends :
  handled server request sends (handle server request sends).
Proof.
  unfold handle.
  destruct (strings.Contains request requestFd) eqn:Hfd.
  - destruct (strings.Split request "," !! 1%nat) as [s1|] eqn:Hs1.
    + assert (Hn : named request (strings.ReplaceAll s1 " " ""))
        by (exists s1; auto).
      rewrite (bind_run _ _ _ _ _ _ (handleXskRequest_run _ _ _ Hn)), after_ret.
      destruct (devices server !! _) as [fd|] eqn:Hdev.
      * destruct (0 <? fd) eqn:Hpos.
        -- eapply handled_fd; eauto. now apply Z.ltb_lt.
        -- apply handled_plain.
      * apply handled_plain.
    + unfold handleXskRequest.
      rewrite (bind_panic _ _ _ _ _
                 (bind_panic _ _ _ _ _ (index_panic _ _ sends Hs1))).
      apply handled_panic.
  - repeat case_bool_decide;
      rewrite (bind_run _ _ _ _ _ _ (write_run _ _)), after_ret;
      apply handled_plain.
Qed.

Lemma handle_fin sends :
  handle server requestFin sends
  = (Ok (nextErr sends, false), [Sendmsg responseFinAck None (nextErr sends)], tail sends).
Proof.
  unfold handle.
  assert (strings.Contains requestFin requestFd = false) as -> by reflexivity.
  rewrite (bool_decide_eq_false_2 (requestFin = requestVersion)) by discriminate.
  rewrite (bool_decide_eq_true_2 (requestFin = requestFin)) by reflexivity.
  now rewrite (bind_run _ _ _ _ _ _ (write_run _ _)), after_ret.
Qed.

Lemma handle_fd request iface sends :
  strings.Contains request requestFd = true ->
  named request iface ->
  handle server request sends
  = (Ok (nextErr sends, true),
     [match devices server !! iface with
      | Some fd =>
          Sendmsg responseFdAck (if 0 <? fd then Some (UnixRights fd) else None)
            (nextErr sends)
      | None => Sendmsg responseFdNak None (nextErr sends)
      end],
     tail sends).
Proof.
  intros Hfd Hn. unfold handle. rewrite Hfd.
  now rewrite (bind_run _ _ _ _ _ _ (handleXskRequest_run _ _ _ Hn)), after_ret.
Qed.

Lemma handle_fd_panic request sends :
  strings.Contains request requestFd = true ->
  strings.Contains request "," = false ->
  handle server request sends = (Panic, [], sends).
Proof.
  intros Hfd Hc. unfold handle. rewrite Hfd.
  apply bind_panic, handleXskRequest_panic, Hc.
Qed.

End Dispatch.

(** ** The authenticated loop *)

Section Loop.
Variable server : udsServer.

(** One turn of [for connected]: the read, then what [handle] did. *)
Lemma serve_cons msg q sends :
  serve server (inl msg :: q) sends
  = let request := String.substring 0 udsBufSize msg in
    match handle server request sends with
    | (Ok (None, true), evs, sends') =>
        after (Read request None :: evs) (serve server q) sends'
    | (Ok _, evs, sends') => (Ok tt, Read request None :: evs, sends')
    | (Panic, evs, sends') => (Panic, Read request None :: evs, sends')
    | (Blocked, evs, sends') => (Blocked, Read request None :: evs, sends')
    end.
Proof.
  cbn [serve]. unfold bind at 1. rewrite read_run. cbn zeta.
  unfold bind at 1.
  destruct (handle server _ sends) as [[[[[e|] [|]]| |] evs] sends'];
    cbn; rewrite ?app_nil_r; try reflexivity.
  unfold after. now destruct (serve server q sends') as [[r evs'] sends''].
Qed.

Lemma serve_cons_err e q sends :
  serve server (inr e :: q) sends = (Ok tt, [Read EmptyString (Some e)], sends).
Proof. reflexivity. Qed.

Lemma serve_nil sends : serve server [] sends = (Blocked, [], sends).
Proof. reflexivity. Qed.

(** C7: in the authenticated loop a termination request ([/fin]) is
    answered by one [Sendmsg] of [/fin_ack], without a descriptor; then
    [start] returns, whatever that send returned and whatever the peer
    would still send: no further read happens. *)
Theorem fin_acknowledged_once_then_closed msg q sends :
  String.substring 0 udsBufSize msg = requestFin ->
  serve server (inl msg :: q) sends
  = (Ok tt,
     [Read requestFin None; Sendmsg responseFinAck None (nextErr sends)],
     tail sends).
Proof.
  intros Hreq. rewrite serve_cons. cbn zeta. rewrite Hreq, handle_fin.
  now destruct (nextErr sends).
Qed.

(** C6, as the code has it: in the authenticated loop, when the reply
    is sent without error, a descriptor request that names a registered
    interface whose descriptor is strictly positive and fits the 32
    bits of the control message (it is less than 2^31) is answered with
    [/fd_ack] carrying exactly that descriptor, one that names an
    unregistered interface is answered with [/fd_nak] carrying none,
    and in both cases the loop goes on to the next read. *)
Theorem fd_request_answered msg q sends iface :
  strings.Contains (String.substring 0 udsBufSize msg) requestFd = true ->
  named (String.substring 0 udsBufSize msg) iface ->
  nextErr sends = None ->
  (forall fd, devices server !! iface = Some fd -> 0 < fd -> fd < 2 ^ 31 ->
     serve server (inl msg :: q) sends
     = after [Read (String.substring 0 udsBufSize msg) None;
              Sendmsg responseFdAck (Some fd) None]
         (serve server q) (tail sends))
  /\ (devices server !! iface = None ->
      serve server (inl msg :: q) sends
      = after [Read (String.substring 0 udsBufSize msg) None;
               Sendmsg responseFdNak None None]
          (serve server q) (tail sends)).
Proof.
  intros Hfd Hn Hok.
  split; [intros fd Hdev Hpos Hlt | intros Hdev];
    rewrite serve_cons; cbn zeta;
    rewrite (handle_fd server _ _ _ Hfd Hn), Hdev, Hok; [|reflexivity].
  rewrite (UnixRights_small fd Hpos Hlt).
  apply Z.ltb_lt in Hpos. now rewrite Hpos.
Qed.

(** C10: a device registered by [AddDevice] with a descriptor that is
    zero or negative is acknowledged with [/fd_ack] and no descriptor
    attached; [writeWithFD] attaches a descriptor, the one that
    [UnixRights] makes of its argument, exactly when the argument is
    strictly greater than zero. *)
Theorem fd_ack_without_descriptor dev fd request sends :
  fd <= 0 ->
  strings.Contains request requestFd = true ->
  named request dev ->
  handle (AddDevice server dev fd) request sends
  = (Ok (nextErr sends, true),
     [Sendmsg responseFdAck None (nextErr sends)], tail sends)
  /\ (forall response fd', exists rights,
        (writeWithFD response fd' sends).1.2
        = [Sendmsg response rights (nextErr sends)]
        /\ (rights = Some (UnixRights fd') <-> 0 < fd')
        /\ (rights = None <-> fd' <= 0)).
Proof.
  intros Hle Hc Hn. split.
  - rewrite (handle_fd (AddDevice server dev fd) _ _ _ Hc Hn).
    cbn [devices AddDevice]. rewrite lookup_insert_eq.
    apply Z.ltb_ge in Hle. now rewrite Hle.
  - intros response fd'. rewrite writeWithFD_run. cbn.
    destruct (0 <? fd') eqn:Hpos.
    + apply Z.ltb_lt in Hpos. exists (Some (UnixRights fd')).
      repeat split; try easy; lia.
    + apply Z.ltb_ge in Hpos. exists None. repeat split; try easy; try lia.
Qed.

End Loop.

(** ** Descriptors are sent in the authenticated loop only *)

Section Rights.
Variable server : udsServer.

Lemma cons_split {A} (x y : A) l pre post :
  x :: l = pre ++ y :: post ->
  (pre = [] /\ x = y /\ l = post)
  \/ (exists pre', pre = x :: pre' /\ l = pre' ++ y :: post).
Proof. destruct pre as [|z pre]; cbn; intros [= -> ->]; eauto. Qed.

Lemma nil_split {A} (y : A) pre post : [] = pre ++ y :: post -> False.
Proof. destruct pre; discriminate. Qed.

Lemma granted_cons e pre response fd :
  granted server pre response fd -> granted server (e :: pre) response fd.
Proof.
  intros (Hr & pre' & request & iface & registered & -> & H).
  split; [exact Hr|].
  exists (e :: pre'), request, iface, registered. split; [reflexivity | exact H].
Qed.

(** Every descriptor that the loop sends is granted. *)
Lemma serve_rights q : forall sends r evs sends',
  serve server q sends = (r, evs, sends') ->
  forall pre response fd err post,
    evs = pre ++ Sendmsg response (Some fd) err :: post ->
    granted server pre response fd.
Proof.
  induction q as [|[msg|e] q IH]; intros sends r evs sends' Hrun pre response fd err post Hevs.
  - rewrite serve_nil in Hrun. injection Hrun as <- <- <-.
    now apply nil_split in Hevs.
  - rewrite serve_cons in Hrun. cbn zeta in Hrun.
    set (request := String.substring 0 udsBufSize msg) in *.
    destruct (handle_handled server request sends) as [iface fd0 Hfd Hn Hdev Hpos|resp c|].
    + assert (Hgr : granted server [Read request None] responseFdAck (UnixRights fd0)).
      { split; [reflexivity|].
        exists [], request, iface, fd0. repeat split; auto. }
      destruct (nextErr sends) as [e|].
      * injection Hrun as <- <- <-.
        apply cons_split in Hevs as [(-> & [=] & _)|(pre1 & -> & Hevs)].
        apply cons_split in Hevs as [(-> & [= <- <- <-] & _)|(pre2 & -> & Hevs)].
        -- exact Hgr.
        -- now apply nil_split in Hevs.
      * unfold after in Hrun.
        destruct (serve server q (tail sends)) as [[r1 evs1] s1] eqn:Hs.
        injection Hrun as <- <- <-.
        apply cons_split in Hevs as [(-> & [=] & _)|(pre1 & -> & Hevs)].
        apply cons_split in Hevs as [(-> & [= <- <- <-] & _)|(pre2 & -> & Hevs)].
        -- exact Hgr.
        -- do 2 apply granted_cons. eapply IH; eauto.
    + destruct (nextErr sends) as [e|], c.
      3: { unfold after in Hrun.
           destruct (serve server q (tail sends)) as [[r1 evs1] s1] eqn:Hs.
           injection Hrun as <- <- <-.
           apply cons_split in Hevs as [(-> & [=] & _)|(pre1 & -> & Hevs)].
           apply cons_split in Hevs as [(-> & [=] & _)|(pre2 & -> & Hevs)].
           do 2 apply granted_cons. eapply IH; eauto. }
      all: injection Hrun as <- <- <-;
        apply cons_split in Hevs as [(-> & [=] & _)|(pre1 & -> & Hevs)];
        apply cons_split in Hevs as [(-> & [=] & _)|(pre2 & -> & Hevs)];
        now apply nil_split in Hevs.
    + injection Hrun as <- <- <-.
      apply cons_split in Hevs as [(-> & [=] & _)|(pre1 & -> & Hevs)].
      now apply nil_split in Hevs.
  - rewrite serve_cons_err in Hrun. injection Hrun as <- <- <-.
    apply cons_split in Hevs as [(-> & [=] & _)|(pre1 & -> & Hevs)].
    now apply nil_split in Hevs.
Qed.

End Rights.

(** ** The handshake *)

Section Handshake.
Variable server : udsServer.
Variable host : Host.

Lemma validateHost_true_no_error podResources hostname err :
  validateHost server podResources hostname = (true, err) -> err = None.
Proof.
  unfold validateHost. destruct podResources as [resp|e]; [|discriminate].
  destruct (podResourceMap resp !! hostname) as [pod|]; [|discriminate].
  destruct (scanContainers server (GetContainers pod) false); congruence.
Qed.

(** A first request without the connect token: nothing happens. *)
Lemma connect_other request sends :
  strings.Contains request requestConnect = false ->
  connect server host request sends = (Ok false, [], sends).
Proof. intros H. unfold connect. now rewrite H. Qed.

Lemma connect_no_argument request sends :
  strings.Contains request requestConnect = true ->
  strings.Split request "," !! 1%nat = None ->
  connect server host request sends = (Panic, [], sends).
Proof.
  intros H Hs. unfold connect. rewrite H.
  apply bind_panic, index_panic, Hs.
Qed.

Lemma connect_panic request sends :
  strings.Contains request requestConnect = true ->
  strings.Contains request "," = false ->
  connect server host request sends = (Panic, [], sends).
Proof.
  intros H Hc. apply connect_no_argument; [exact H|].
  apply Split_no_second, Hc.
Qed.

(** A connect request that names [hostname]: the validator is asked,
    an error is reported with [/error], and then the verdict is
    reported with [/host_ok] or [/host_nak] in every case. *)
Lemma connect_named request hostname sends :
  strings.Contains request requestConnect = true ->
  named request hostname ->
  connect server host request sends
  = match validateHost server (getPodResources host) hostname with
    | (valid, Some _) =>
        (Ok valid,
         [Validate hostname;
          Sendmsg responseError None (nextErr sends);
          Sendmsg (if valid then responseHostOk else responseHostNak) None
            (nextErr (tail sends))],
         tail (tail sends))
    | (valid, None) =>
        (Ok valid,
         [Validate hostname;
          Sendmsg (if valid then responseHostOk else responseHostNak) None
            (nextErr sends)],
         tail sends)
    end.
Proof.
  intros H (s1 & Hs1 & ->). unfold connect. rewrite H.
  rewrite (bind_run _ _ _ _ _ _ (index_run _ _ _ _ Hs1)).
  unfold after, bind, emit, ret.
  destruct (validateHost server (getPodResources host) _) as [[|] [e|]];
    rewrite !write_run; reflexivity.
Qed.

Lemma session_cons msg rest sends :
  inbound host = inl msg :: rest ->
  session server host sends
  = let request := String.substring 0 udsBufSize msg in
    match connect server host request sends with
    | (Ok true, evs, sends') =>
        after (Read request None :: evs) (serve server rest) sends'
    | (Ok false, evs, sends') => (Ok tt, Read request None :: evs, sends')
    | (Panic, evs, sends') => (Panic, Read request None :: evs, sends')
    | (Blocked, evs, sends') => (Blocked, Read request None :: evs, sends')
    end.
Proof.
  intros Hin. unfold session. rewrite Hin.
  unfold bind at 1. rewrite read_run. cbn zeta.
  unfold bind at 1.
  destruct (connect server host _ sends) as [[[[|]| |] evs] sends'];
    cbn; rewrite ?app_nil_r; try reflexivity.
  unfold after. now destruct (serve server rest sends') as [[r evs'] sends''].
Qed.

Lemma start_accepted :
  accepted server host ->
  start server host = (session server host (sends host)).1.
Proof.
  intros (H1 & H2 & H3 & H4 & H5). unfold start.
  rewrite H1, H2, H4, H5.
  destruct (timeout server); [rewrite H3 by reflexivity|]; reflexivity.
Qed.

Lemma start_cases :
  start server host = (Ok tt, [])
  \/ start server host = (session server host (sends host)).1.
Proof.
  unfold start.
  destruct (resolveUnixAddr host); [now left|].
  destruct (listenUnix host); [now left|].
  destruct (if timeout server then setDeadline host else None); [now left|].
  destruct (acceptUnix host); [now left|].
  destruct (connFile host); [now left|].
  now right.
Qed.

(** C5, as the code has it: when the first request of an accepted
    connection does not contain the connect token anywhere, [start]
    sends nothing at all and returns: the only event is the read of
    that request. *)
Theorem first_request_not_connect_closes msg rest :
  accepted server host ->
  inbound host = inl msg :: rest ->
  strings.Contains (String.substring 0 udsBufSize msg) requestConnect = false ->
  start server host = (Ok tt, [Read (String.substring 0 udsBufSize msg) None]).
Proof.
  intros Hacc Hin Hno.
  rewrite (start_accepted Hacc), (session_cons _ _ _ Hin). cbn zeta.
  now rewrite (connect_other _ _ Hno).
Qed.

(** C3: when the validator returns an error during the connect
    handshake, [start] sends [/error] and then, falling through to the
    report of the verdict, [/host_nak] as well, and returns: the error
    reply is not the only reply of the handshake. *)
Theorem validator_error_sends_error_then_nak msg rest hostname e :
  accepted server host ->
  inbound host = inl msg :: rest ->
  strings.Contains (String.substring 0 udsBufSize msg) requestConnect = true ->
  named (String.substring 0 udsBufSize msg) hostname ->
  getPodResources host = inr e ->
  start server host
  = (Ok tt,
     [Read (String.substring 0 udsBufSize msg) None;
      Validate hostname;
      Sendmsg responseError None (nextErr (sends host));
      Sendmsg responseHostNak None (nextErr (tail (sends host)))]).
Proof.
  intros Hacc Hin Hc Hn He.
  rewrite (start_accepted Hacc), (session_cons _ _ _ Hin). cbn zeta.
  rewrite (connect_named _ _ _ Hc Hn), He. reflexivity.
Qed.

End Handshake.

(** C9: the parse of an argument-bearing request is not total.  A first
    request that contains the connect token and no comma makes [start]
    index the second element of a one-element split and panic, with
    nothing sent; so does, in the authenticated loop, a request that
    contains the descriptor-request token and no comma. *)
Theorem request_without_comma_panics server :
  (forall host msg rest,
     accepted server host ->
     inbound host = inl msg :: rest ->
     strings.Contains (String.substring 0 udsBufSize msg) requestConnect = true ->
     strings.Contains (String.substring 0 udsBufSize msg) "," = false ->
     length (strings.Split (String.substring 0 udsBufSize msg) ",") = 1%nat
     /\ start server host = (Panic, [Read (String.substring 0 udsBufSize msg) None]))
  /\ (forall msg q sends,
        strings.Contains (String.substring 0 udsBufSize msg) requestFd = true ->
        strings.Contains (String.substring 0 udsBufSize msg) "," = false ->
        length (strings.Split (String.substring 0 udsBufSize msg) ",") = 1%nat
        /\ serve server (inl msg :: q) sends
           = (Panic, [Read (String.substring 0 udsBufSize msg) None], sends)).
Proof.
  split.
  - intros host msg rest Hacc Hin Hc Hno. split.
    + now rewrite Split_no_sep.
    + rewrite (start_accepted _ _ Hacc), (session_cons _ _ _ _ _ Hin). cbn zeta.
      now rewrite (connect_panic _ _ _ _ Hc Hno).
  - intros msg q sends Hfd Hno. split.
    + now rewrite Split_no_sep.
    + rewrite serve_cons. cbn zeta.
      now rewrite (handle_fd_panic _ _ _ Hfd Hno).
Qed.

(** C2: in every run of [start], a reply that carries a descriptor
    comes after a handshake in which the validator was asked about the
    name of the connect request and returned entitled without error,
    and after the [/host_ok] reply; it is an [/fd_ack] that answers the
    request read just before it, whose interface name is a key of the
    registry, and the descriptor it carries is the one registered
    under that name as [UnixRights] stores it.  Nothing sent before the
    loop carries a descriptor. *)
Theorem descriptor_only_after_validation server host r evs pre response fd err post :
  start server host = (r, evs) ->
  evs = pre ++ Sendmsg response (Some fd) err :: post ->
  (exists request hostname e pre',
      pre = Read request None :: Validate hostname
              :: Sendmsg responseHostOk None e :: pre'
      /\ strings.Contains request requestConnect = true
      /\ named request hostname
      /\ validateHost server (getPodResources host) hostname = (true, None))
  /\ granted server pre response fd.
Proof.
  intros Hrun Hevs.
  destruct (start_cases server host) as [H|H]; rewrite H in Hrun.
  { injection Hrun as <- <-. now apply nil_split in Hevs. }
  destruct (inbound host) as [|[msg|e0] rest] eqn:Hin.
  - unfold session in Hrun. rewrite Hin in Hrun.
    injection Hrun as <- <-. now apply nil_split in Hevs.
  - rewrite (session_cons _ _ _ _ _ Hin) in Hrun. cbn zeta in Hrun.
    set (request := String.substring 0 udsBufSize msg) in *.
    destruct (strings.Contains request requestConnect) eqn:Hc.
    2: { rewrite (connect_other _ _ _ _ Hc) in Hrun.
         injection Hrun as <- <-.
         apply cons_split in Hevs as [(-> & [=] & _)|(pre1 & -> & Hevs)].
         now apply nil_split in Hevs. }
    destruct (strings.Split request "," !! 1%nat) as [s1|] eqn:Hs1.
    2: { rewrite (connect_no_argument _ _ _ _ Hc Hs1) in Hrun.
         injection Hrun as <- <-.
         apply cons_split in Hevs as [(-> & [=] & _)|(pre1 & -> & Hevs)].
         now apply nil_split in Hevs. }
    assert (Hn : named request (strings.ReplaceAll s1 " " "")) by (exists s1; auto).
    rewrite (connect_named _ _ _ _ _ Hc Hn) in Hrun.
    destruct (validateHost server (getPodResources host) _) as [[|] [e|]] eqn:Hv.
    + apply validateHost_true_no_error in Hv. discriminate Hv.
    + unfold after in Hrun.
      destruct (serve server rest (tail (sends host))) as [[r1 evs1] s1'] eqn:Hs.
      injection Hrun as <- <-.
      apply cons_split in Hevs as [(-> & [=] & _)|(pre1 & -> & Hevs)].
      apply cons_split in Hevs as [(-> & [=] & _)|(pre2 & -> & Hevs)].
      apply cons_split in Hevs as [(-> & [=] & _)|(pre3 & -> & Hevs)].
      split.
      * exists request, (strings.ReplaceAll s1 " " ""), (nextErr (sends host)), pre3.
        auto.
      * do 3 apply granted_cons. eapply serve_rights; eauto.
    + injection Hrun as <- <-.
      apply cons_split in Hevs as [(-> & [=] & _)|(pre1 & -> & Hevs)].
      apply cons_split in Hevs as [(-> & [=] & _)|(pre2 & -> & Hevs)].
      apply cons_split in Hevs as [(-> & [=] & _)|(pre3 & -> & Hevs)].
      apply cons_split in Hevs as [(-> & [=] & _)|(pre4 & -> & Hevs)].
      now apply nil_split in Hevs.
    + injection Hrun as <- <-.
      apply cons_split in Hevs as [(-> & [=] & _)|(pre1 & -> & Hevs)].
      apply cons_split in Hevs as [(-> & [=] & _)|(pre2 & -> & Hevs)].
      apply cons_split in Hevs as [(-> & [=] & _)|(pre3 & -> & Hevs)].
      now apply nil_split in Hevs.
  - unfold session in Hrun. rewrite Hin in Hrun. cbn in Hrun.
    injection Hrun as <- <-.
    apply cons_split in Hevs as [(-> & [=] & _)|(pre1 & -> & Hevs)].
    now apply nil_split in Hevs.
Qed.

(** ** The path generator *)

(** The loop of the generator in full: a new identifier is generated
    exactly when the path tried is not reported absent, whether or not
    the generation failed.  The path returned is the one of the first
    turn whose path is absent at its check, it is the well-known
    directory followed by the identifier and [.sock], one identifier
    was generated per turn up to that one, and every failure of
    [uuid.NewV4] up to there was logged. *)
Theorem generateSocketPath_returns_first_absent turns :
  match generateSocketPath turns with
  | (evs, Some sockPath) =>
      exists pre a post,
        turns = pre ++ a :: post
        /\ Forall (fun b => IsNotExist b (sockPathOf b) = false) pre
        /\ IsNotExist a sockPath = true
        /\ sockPath = usdSockDir +:+ (NewV4 a).1 +:+ ".sock"
        /\ generations evs = S (length pre)
        /\ logged evs = omap (fun b => (NewV4 b).2) (pre ++ [a])
  | (evs, None) =>
      Forall (fun b => IsNotExist b (sockPathOf b) = false) turns
      /\ generations evs = length turns
      /\ logged evs = omap (fun b => (NewV4 b).2) turns
  end.
Proof.
  induction turns as [|a turns IH]; cbn [generateSocketPath].
  - repeat split; constructor.
  - destruct a as [[sockName err] notExist] eqn:Ha.
    cbn [NewV4 IsNotExist].
    destruct (notExist (usdSockDir +:+ sockName +:+ ".sock")) eqn:Hstat.
    + exists [], a, turns. subst a. cbn [NewV4 IsNotExist fst snd app length].
      repeat split; try constructor; try assumption;
        destruct err; reflexivity.
    + destruct (generateSocketPath turns) as [evs [sockPath|]].
      * destruct IH as (pre & b & post & -> & Hpre & Hb & Hpath & Hgen & Hlog).
        exists (a :: pre), b, post. subst a.
        repeat split; try assumption.
        -- constructor; [exact Hstat | exact Hpre].
        -- destruct err; cbn; now rewrite Hgen.
        -- destruct err; cbn; now rewrite Hlog.
      * destruct IH as (Hall & Hgen & Hlog). subst a.
        repeat split.
        -- constructor; [exact Hstat | exact Hall].
        -- destruct err; cbn; now rewrite Hgen.
        -- destruct err; cbn; now rewrite Hlog.
Qed.

(** C8: when [uuid.NewV4] fails, the failure is logged and nothing
    else is done about it: the generator goes on with the identifier
    that came with the error, and when the path made of it is absent
    it returns that path at once.  The generation is not retried. *)
Theorem generateSocketPath_uses_failed_identifier a turns sockName e :
  NewV4 a = (sockName, Some e) ->
  IsNotExist a (usdSockDir +:+ sockName +:+ ".sock") = true ->
  generateSocketPath (a :: turns)
  = ([Generate sockName (Some e); Errorf e;
      Stat (usdSockDir +:+ sockName +:+ ".sock") true],
     Some (usdSockDir +:+ sockName +:+ ".sock")).
Proof.
  intros Hnew Habsent. cbn [generateSocketPath].
  now rewrite Hnew, Habsent.
Qed.


(** ** The properties on concrete runs *)

(** A failed generation is not retried: the first call of
    [uuid.NewV4] fails, its all-zero identifier gives a path that is
    absent, and the generator returns that path after one generation
    although another turn was to be had. *)
Lemma generateSocketPath_failure_not_retried :
  ~ (forall turns name e,
       head (generateSocketPath turns).1 = Some (Generate name (Some e)) ->
       (2 <= generations (generateSocketPath turns).1)%nat).
Proof.
  intros H.
  specialize (H [ {| NewV4 := ("00000000-0000-0000-0000-000000000000", Some ErrOther);
                     IsNotExist := fun _ => true |};
                  {| NewV4 := ("6ba7b810-9dad-41d1-80b4-00c04fd430c8", None);
                     IsNotExist := fun _ => true |} ]
                "00000000-0000-0000-0000-000000000000" ErrOther eq_refl).
  vm_compute in H. lia.
Qed.

(** Where C6 fails as stated: [eth1] is registered with descriptor 0,
    the send succeeds, and the request that names it is answered with
    [/fd_ack] without the descriptor. *)
Lemma fd_ack_of_registered_interface_lacks_descriptor :
  ~ (forall server msg q sends iface fd,
       strings.Contains (String.substring 0 udsBufSize msg) requestFd = true ->
       named (String.substring 0 udsBufSize msg) iface ->
       nextErr sends = None ->
       devices server !! iface = Some fd ->
       serve server (inl msg :: q) sends
       = after [Read (String.substring 0 udsBufSize msg) None;
                Sendmsg responseFdAck (Some fd) None]
           (serve server q) (tail sends)).
Proof.
  intros H.
  specialize (H (exampleServer [("eth1", 0)]) "/xsk_map_fd, eth1" [] [] "eth1" 0
                eq_refl (ex_intro _ " eth1" (conj eq_refl eq_refl)) eq_refl eq_refl).
  vm_compute in H. discriminate H.
Qed.

(** Where C5 fails as stated: the first request [/xsk_map_fd /connect,
    podA] is no connect request, the token is not at its head, and yet
    the validator is asked about [podA] and [/host_ok] is sent. *)
Lemma first_request_with_connect_inside_is_answered :
  ~ (forall server host msg rest,
       accepted server host ->
       inbound host = inl msg :: rest ->
       ~ specConnectRequest (String.substring 0 udsBufSize msg) ->
       replies (start server host).2 = [] /\ (start server host).1 = Ok tt).
Proof.
  intros H.
  specialize (H (exampleServer [("eth1", 7)])
                (exampleHost (inl (exampleTable ["eth1"]))
                   [inl "/xsk_map_fd /connect, podA"])
                "/xsk_map_fd /connect, podA" []).
  destruct H as [H _].
  - repeat split; reflexivity.
  - reflexivity.
  - intros (identity & Hform). cbn in Hform. discriminate Hform.
  - vm_compute in H. discriminate H.
Qed.

Lemma generateSocketPath_uses_failed_identifier_witness :
  generateSocketPath
    [ {| NewV4 := ("00000000-0000-0000-0000-000000000000", Some ErrOther);
         IsNotExist := fun _ => true |};
      {| NewV4 := ("6ba7b810-9dad-41d1-80b4-00c04fd430c8", None);
         IsNotExist := fun _ => true |} ]
  = ([Generate "00000000-0000-0000-0000-000000000000" (Some ErrOther);
      Errorf ErrOther;
      Stat "/tmp/00000000-0000-0000-0000-000000000000.sock" true],
     Some "/tmp/00000000-0000-0000-0000-000000000000.sock").
Proof.
  exact (generateSocketPath_uses_failed_identifier
           {| NewV4 := ("00000000-0000-0000-0000-000000000000", Some ErrOther);
              IsNotExist := fun _ => true |}
           [ {| NewV4 := ("6ba7b810-9dad-41d1-80b4-00c04fd430c8", None);
                IsNotExist := fun _ => true |} ]
           "00000000-0000-0000-0000-000000000000" ErrOther eq_refl eq_refl).
Defined.

(** What [UnixRights] makes of a descriptor beyond 32 bits. *)
Lemma UnixRights_wraps : UnixRights (2 ^ 32 + 9) = 9 /\ UnixRights (2 ^ 32) = 0.
Proof. split; reflexivity. Qed.

Lemma descriptor_only_after_validation_witness :
  start (exampleServer [("eth1", 7)])
    (exampleHost (inl (exampleTable ["eth1"]))
       [inl "/connect, podA"; inl "/xsk_map_fd, eth1"])
  = (Blocked,
     [Read "/connect, podA" None; Validate "podA"; Sendmsg "/host_ok" None None;
      Read "/xsk_map_fd, eth1" None]
     ++ Sendmsg "/fd_ack" (Some 7) None :: [])
  /\ granted (exampleServer [("eth1", 7)])
       [Read "/connect, podA" None; Validate "podA"; Sendmsg "/host_ok" None None;
        Read "/xsk_map_fd, eth1" None]
       "/fd_ack" 7.
Proof.
  assert (Hrun :
    start (exampleServer [("eth1", 7)])
      (exampleHost (inl (exampleTable ["eth1"]))
         [inl "/connect, podA"; inl "/xsk_map_fd, eth1"])
    = (Blocked,
       [Read "/connect, podA" None; Validate "podA"; Sendmsg "/host_ok" None None;
        Read "/xsk_map_fd, eth1" None]
       ++ Sendmsg "/fd_ack" (Some 7) None :: [])) by (vm_compute; reflexivity).
  split; [exact Hrun|].
  exact (proj2 (descriptor_only_after_validation _ _ _ _ _ _ _ _ _ Hrun eq_refl)).
Defined.

Lemma validator_error_sends_error_then_nak_witness :
  accepted (exampleServer [("eth1", 7)]) (exampleHost (inr ErrTimeout) [inl "/connect, podA"])
  /\ start (exampleServer [("eth1", 7)]) (exampleHost (inr ErrTimeout) [inl "/connect, podA"])
     = (Ok tt,
        [Read "/connect, podA" None; Validate "podA";
         Sendmsg "/error" None None; Sendmsg "/host_nak" None None]).
Proof.
  assert (Hacc : accepted (exampleServer [("eth1", 7)])
                   (exampleHost (inr ErrTimeout) [inl "/connect, podA"]))
    by (repeat split; reflexivity).
  split; [exact Hacc|].
  exact (validator_error_sends_error_then_nak _ _ "/connect, podA" [] "podA" ErrTimeout
           Hacc eq_refl eq_refl (ex_intro _ " podA" (conj eq_refl eq_refl)) eq_refl).
Defined.

Lemma first_request_not_connect_closes_witness :
  accepted (exampleServer [("eth1", 7)])
    (exampleHost (inl (exampleTable ["eth1"])) [inl "/xsk_map_fd, eth1"])
  /\ start (exampleServer [("eth1", 7)])
       (exampleHost (inl (exampleTable ["eth1"])) [inl "/xsk_map_fd, eth1"])
     = (Ok tt, [Read "/xsk_map_fd, eth1" None]).
Proof.
  assert (Hacc : accepted (exampleServer [("eth1", 7)])
                   (exampleHost (inl (exampleTable ["eth1"])) [inl "/xsk_map_fd, eth1"]))
    by (repeat split; reflexivity).
  split; [exact Hacc|].
  exact (first_request_not_connect_closes _ _ "/xsk_map_fd, eth1" [] Hacc eq_refl eq_refl).
Defined.

Lemma fd_request_answered_witness :
  serve (exampleServer [("eth1", 7)]) [inl "/xsk_map_fd, eth1"; inl "/fin"] []
  = after [Read "/xsk_map_fd, eth1" None; Sendmsg "/fd_ack" (Some 7) None]
      (serve (exampleServer [("eth1", 7)]) [inl "/fin"]) []
  /\ serve (exampleServer [("eth1", 7)]) [inl "/xsk_map_fd, eth9"; inl "/fin"] []
     = after [Read "/xsk_map_fd, eth9" None; Sendmsg "/fd_nak" None None]
         (serve (exampleServer [("eth1", 7)]) [inl "/fin"]) [].
Proof.
  split.
  - exact (proj1 (fd_request_answered (exampleServer [("eth1", 7)])
                    "/xsk_map_fd, eth1" [inl "/fin"] [] "eth1"
                    eq_refl (ex_intro _ " eth1" (conj eq_refl eq_refl)) eq_refl)
             7 eq_refl eq_refl eq_refl).
  - exact (proj2 (fd_request_answered (exampleServer [("eth1", 7)])
                    "/xsk_map_fd, eth9" [inl "/fin"] [] "eth9"
                    eq_refl (ex_intro _ " eth9" (conj eq_refl eq_refl)) eq_refl)
             eq_refl).
Defined.

Lemma fin_acknowledged_once_then_closed_witness :
  serve (exampleServer [("eth1", 7)]) [inl "/fin"; inl "/version"] [Some ErrOther]
  = (Ok tt, [Read "/fin" None; Sendmsg "/fin_ack" None (Some ErrOther)], []).
Proof.
  exact (fin_acknowledged_once_then_closed (exampleServer [("eth1", 7)])
           "/fin" [inl "/version"] [Some ErrOther] eq_refl).
Defined.

Lemma request_without_comma_panics_witness :
  (accepted (exampleServer [("eth1", 7)])
     (exampleHost (inl (exampleTable ["eth1"])) [inl "/connect podA"])
   /\ start (exampleServer [("eth1", 7)])
        (exampleHost (inl (exampleTable ["eth1"])) [inl "/connect podA"])
      = (Panic, [Read "/connect podA" None]))
  /\ serve (exampleServer [("eth1", 7)]) [inl "/xsk_map_fd eth1"] []
     = (Panic, [Read "/xsk_map_fd eth1" None], []).
Proof.
  assert (Hacc : accepted (exampleServer [("eth1", 7)])
                   (exampleHost (inl (exampleTable ["eth1"])) [inl "/connect podA"]))
    by (repeat split; reflexivity).
  split; [split; [exact Hacc|]|].
  - exact (proj2 (proj1 (request_without_comma_panics (exampleServer [("eth1", 7)]))
                    _ "/connect podA" [] Hacc eq_refl eq_refl eq_refl)).
  - exact (proj2 (proj2 (request_without_comma_panics (exampleServer [("eth1", 7)]))
                    "/xsk_map_fd eth1" [] [] eq_refl eq_refl)).
Defined.

Lemma fd_ack_without_descriptor_witness :
  -1 <= 0
  /\ handle (AddDevice (exampleServer []) "eth1" (-1)) "/xsk_map_fd, eth1" []
     = (Ok (None, true), [Sendmsg "/fd_ack" None None], []).
Proof.
  assert (Hle : -1 <= 0) by lia.
  split; [exact Hle|].
  exact (proj1 (fd_ack_without_descriptor (exampleServer []) "eth1" (-1)
                  "/xsk_map_fd, eth1" [] Hle eq_refl
                  (ex_intro _ " eth1" (conj eq_refl eq_refl)))).
Defined.

(** * Further properties of the code *)

(** Closes a goal that is an instance of the lemma given. *)
Ltac exact_holds H := intros; first [ exact H | eapply H; eassumption | apply H ].

(** ** The registry: [AddDevice] *)

(** X1: [AddDevice] records the descriptor under the name, leaves every
    other entry and the other fields of the server as they were, and a
    second registration of the same name replaces the first. *)
Theorem AddDevice_lookup server dev fd :
  devices (AddDevice server dev fd) !! dev = Some fd
  /\ (forall other, other <> dev ->
        devices (AddDevice server dev fd) !! other = devices server !! other)
  /\ socket (AddDevice server dev fd) = socket server
  /\ timeout (AddDevice server dev fd) = timeout server
  /\ deviceType (AddDevice server dev fd) = deviceType server
  /\ (forall fd', AddDevice (AddDevice server dev fd') dev fd = AddDevice server dev fd)
  /\ size (devices (AddDevice server dev fd))
     = match devices server !! dev with
       | Some _ => size (devices server)
       | None => S (size (devices server))
       end.
Proof.
  unfold AddDevice; cbn. repeat split.
  - apply lookup_insert_eq.
  - intros other Hne. now apply lookup_insert_ne.
  - intros fd'. now rewrite insert_insert_eq.
  - destruct (devices server !! dev) as [fd0|] eqn:Hdev.
    + rewrite <- (insert_delete_id (devices server) dev fd0 Hdev) at 2.
      rewrite <- (insert_delete_eq (devices server)).
      rewrite !map_size_insert_None by apply lookup_delete_eq. reflexivity.
    + now apply map_size_insert_None.
Qed.

(** ** The validator, in full *)

Section Verdict.
Variable server : udsServer.

Lemma snoc_cases {A} (l : list A) : l = [] \/ exists l' x, l = l' ++ [x].
Proof. destruct l as [|x l'] using rev_ind; eauto. Qed.

Lemma compareDevices_nil valid : compareDevices (devices server) [] valid = valid.
Proof. reflexivity. Qed.

(** The scan of the groups of one container, entered with [valid]
    false: it returns [true] at a group that [accepts], and otherwise
    leaves [valid] false. *)
Lemma scanDevices_false devs :
  (scanDevices server devs false = ReturnTrue
   /\ exists device, device ∈ devs /\ accepts server device)
  \/ (scanDevices server devs false = Continue false
      /\ forall device, device ∈ devs -> ~ accepts server device).
Proof.
  induction devs as [|device devs IH].
  - right. split; [reflexivity|]. intros device H. now apply elem_of_nil in H.
  - cbn [scanDevices].
    assert (Hskip :
      ~ accepts server device ->
      (scanDevices server devs false = ReturnTrue
       /\ exists device0, device0 ∈ device :: devs /\ accepts server device0)
      \/ (scanDevices server devs false = Continue false
          /\ forall device0, device0 ∈ device :: devs -> ~ accepts server device0)).
    { intros Hno. destruct IH as [(Hr & d & Hin & Hd)|(Hc & Hall)].
      - left. split; [exact Hr|]. exists d. split; [apply elem_of_cons; now right|exact Hd].
      - right. split; [exact Hc|]. intros d Hin.
        apply elem_of_cons in Hin as [->|Hin]; [exact Hno | now apply Hall]. }
    case_bool_decide as Hname; cbn [orb].
    { apply Hskip. intros (H & _). contradiction. }
    case_bool_decide as Hlen; cbn [orb].
    { apply Hskip. intros (_ & H & _). contradiction. }
    try apply dec_stable in Hname. try apply dec_stable in Hlen.
    destruct (snoc_cases (GetDeviceIds device)) as [Hids|(ids & dev & Hids)].
    + rewrite Hids, compareDevices_nil.
      apply Hskip. intros (_ & _ & ids & dev & H & _).
      rewrite Hids in H. now destruct ids.
    + rewrite Hids, compareDevices_last.
      case_bool_decide as Hreg.
      * left. split; [reflexivity|]. exists device.
        split; [apply elem_of_cons; now left|].
        split; [exact Hname|]. split; [exact Hlen|]. eauto.
      * apply Hskip. intros (_ & _ & ids' & dev' & H & Hreg').
        rewrite Hids in H. apply app_inj_tail in H as [_ ->]. contradiction.
Qed.

Lemma scanContainers_false cs :
  (scanContainers server cs false = ReturnTrue
   /\ exists container device,
       container ∈ cs /\ device ∈ GetDevices container /\ accepts server device)
  \/ (scanContainers server cs false = Continue false
      /\ forall container device,
          container ∈ cs -> device ∈ GetDevices container -> ~ accepts server device).
Proof.
  induction cs as [|container cs IH].
  - right. split; [reflexivity|]. intros c d H. now apply elem_of_nil in H.
  - cbn [scanContainers].
    destruct (scanDevices_false (GetDevices container)) as [(-> & d & Hin & Hd)|(-> & Hall)].
    + left. split; [reflexivity|]. exists container, d.
      split; [apply elem_of_cons; now left|]. auto.
    + destruct IH as [(Hr & c & d & Hc & Hin & Hd)|(Hc & Hall')].
      * left. split; [exact Hr|]. exists c, d.
        split; [apply elem_of_cons; now right|]. auto.
      * right. split; [exact Hc|]. intros c d Hin Hd.
        apply elem_of_cons in Hin as [->|Hin]; [now apply Hall | now apply (Hall' c)].
Qed.

Lemma validateHost_entitled_iff_holds resp hostname :
  validateHost server (inl resp) hostname = (true, None)
  <-> exists pod container device,
        podResourceMap resp !! hostname = Some pod
        /\ container ∈ GetContainers pod
        /\ device ∈ GetDevices container
        /\ accepts server device.
Proof.
  unfold validateHost.
  destruct (podResourceMap resp !! hostname) as [pod|].
  - destruct (scanContainers_false (GetContainers pod))
      as [(-> & c & d & Hc & Hd & Hacc)|(-> & Hall)].
    + split; [|reflexivity]. intros _. exists pod, c, d. auto.
    + split; [discriminate|].
      intros (pod' & c & d & [= <-] & Hc & Hd & Hacc).
      now destruct (Hall c d Hc Hd).
  - split; [discriminate|]. now intros (pod & c & d & [=] & _).
Qed.

(** X2: [validateHost] returns entitled exactly when the pod that the
    table holds under the claimed name has, in some container, a device
    group with the server's resource name and as many identifiers as
    the registry has entries, whose last identifier is registered; the
    identifiers before the last are not looked at. *)
Theorem validateHost_entitled_iff resp hostname :
  validateHost server (inl resp) hostname = (true, None)
  <-> exists pod container device,
        podResourceMap resp !! hostname = Some pod
        /\ container ∈ GetContainers pod
        /\ device ∈ GetDevices container
        /\ accepts server device.
Proof. exact_holds validateHost_entitled_iff_holds. Qed.

Lemma validateHost_empty_registry_holds podResources hostname :
  devices server = ∅ ->
  (validateHost server podResources hostname).1 = false.
Proof.
  intros Hempty.
  destruct (validateHost server podResources hostname) as [[|] err] eqn:Hv; [|reflexivity].
  destruct podResources as [resp|e]; [|discriminate Hv].
  pose proof (validateHost_true_no_error _ _ _ _ Hv) as ->.
  apply validateHost_entitled_iff_holds in Hv
    as (pod & c & d & _ & _ & _ & _ & Hlen & ids & dev & Hids & _).
  rewrite Hempty, map_size_empty, Hids, length_app in Hlen. cbn in Hlen. lia.
Qed.

(** X3: a server whose registry is empty entitles nobody, whatever the
    table holds. *)
Theorem validateHost_empty_registry podResources hostname :
  devices server = ∅ ->
  (validateHost server podResources hostname).1 = false.
Proof. exact_holds validateHost_empty_registry_holds. Qed.

(** X4: a group all of whose identifiers are registered is
    accepted: a group with the server's resource name, as many identifiers
    as the registry has entries, at least one, and all of them
    registered, makes [validateHost] return entitled. *)
Theorem validateHost_full_match resp hostname pod container device :
  podResourceMap resp !! hostname = Some pod ->
  container ∈ GetContainers pod ->
  device ∈ GetDevices container ->
  GetResourceName device = deviceType server ->
  length (GetDeviceIds device) = size (devices server) ->
  GetDeviceIds device <> [] ->
  Forall (fun dev => is_Some (devices server !! dev)) (GetDeviceIds device) ->
  validateHost server (inl resp) hostname = (true, None).
Proof.
  intros Hpod Hc Hd Hname Hlen Hne Hall.
  apply validateHost_entitled_iff_holds. exists pod, container, device.
  repeat (split; [assumption|]).
  destruct (snoc_cases (GetDeviceIds device)) as [Hids|(ids & dev & Hids)];
    [contradiction|].
  exists ids, dev. split; [exact Hids|].
  rewrite Hids in Hall. apply Forall_app in Hall as [_ Hlast].
  now inversion Hlast.
Qed.

(** X5: of several pods of the table that bear the same name, the last
    one alone is looked at: the verdict on a name is the verdict on a
    table made of the last pod of that name. *)
Theorem validateHost_last_pod_of_name before pod later :
  GetName pod ∉ map GetName later ->
  validateHost server (inl {| GetPodResources := before ++ pod :: later |}) (GetName pod)
  = validateHost server (inl {| GetPodResources := [pod] |}) (GetName pod).
Proof.
  intros Hlater. unfold validateHost, podResourceMap. cbn [GetPodResources].
  rewrite foldl_app. cbn [foldl].
  rewrite podResourceMap_fold by exact Hlater.
  now rewrite !lookup_insert_eq.
Qed.

End Verdict.

(** ** The session, case by case *)

Section Cases.
Variable server : udsServer.

(** A request of the loop that is no descriptor request: what is sent
    back, and whether the loop goes on. *)
Lemma handle_other request sends :
  strings.Contains request requestFd = false ->
  handle server request sends
  = (Ok (nextErr sends, negb (bool_decide (request = requestFin))),
     [Sendmsg (if bool_decide (request = requestVersion) then handshakeVersion
               else if bool_decide (request = requestFin) then responseFinAck
               else responseBadRequest) None (nextErr sends)],
     tail sends).
Proof.
  intros Hfd. unfold handle. rewrite Hfd.
  repeat case_bool_decide;
    rewrite (bind_run _ _ _ _ _ _ (write_run _ _)), after_ret;
    try reflexivity.
  subst request. discriminate.
Qed.

(** X6: in the authenticated loop a request that is exactly [/version]
    is answered with the version ["0.1"], without a descriptor, and the
    loop goes on when the send succeeded. *)
Theorem version_answered msg q sends :
  String.substring 0 udsBufSize msg = requestVersion ->
  nextErr sends = None ->
  serve server (inl msg :: q) sends
  = after [Read requestVersion None; Sendmsg "0.1" None None]
      (serve server q) (tail sends).
Proof.
  intros Hreq Hok. rewrite serve_cons. cbn zeta. rewrite Hreq.
  rewrite handle_other by reflexivity. now rewrite Hok.
Qed.

(** X7: in the authenticated loop a request that does not contain the
    descriptor-request token and is neither [/version] nor [/fin]
    exactly is answered with [/nak], and the loop goes on when the
    send succeeded. *)
Theorem bad_request_answered msg q sends :
  strings.Contains (String.substring 0 udsBufSize msg) requestFd = false ->
  String.substring 0 udsBufSize msg <> requestVersion ->
  String.substring 0 udsBufSize msg <> requestFin ->
  nextErr sends = None ->
  serve server (inl msg :: q) sends
  = after [Read (String.substring 0 udsBufSize msg) None;
           Sendmsg responseBadRequest None None]
      (serve server q) (tail sends).
Proof.
  intros Hfd Hv Hf Hok. rewrite serve_cons. cbn zeta.
  rewrite (handle_other _ _ Hfd), Hok.
  now rewrite !bool_decide_eq_false_2.
Qed.

(** X8: a transport error ends the loop at once.  When the read fails,
    nothing is sent; when the send of a reply fails, that reply is the
    last event; in both cases [start] returns and the records that the
    peer would still send are not read. *)
Theorem transport_error_ends_loop q sends :
  (forall e, serve server (inr e :: q) sends
             = (Ok tt, [Read EmptyString (Some e)], sends))
  /\ (forall msg e,
        nextErr sends = Some e ->
        serve server (inl msg :: q) sends
        = (Panic, [Read (String.substring 0 udsBufSize msg) None], sends)
        \/ exists response rights,
            serve server (inl msg :: q) sends
            = (Ok tt,
               [Read (String.substring 0 udsBufSize msg) None;
                Sendmsg response rights (Some e)],
               tail sends)).
Proof.
  split; [reflexivity|].
  intros msg e He. rewrite serve_cons. cbn zeta.
  destruct (handle_handled server (String.substring 0 udsBufSize msg) sends)
    as [iface fd Hfd Hn Hdev Hpos|response c|].
  - rewrite He. right. eauto.
  - rewrite He. right. exists response, None. now destruct c.
  - now left.
Qed.

Lemma serve_answered_holds q : forall sends,
  answered (serve server q sends).1.1 (serve server q sends).1.2.
Proof.
  induction q as [|[msg|e] q IH]; intros sends.
  - constructor.
  - rewrite serve_cons. cbn zeta.
    destruct (handle_handled server (String.substring 0 udsBufSize msg) sends)
      as [iface fd Hfd Hn Hdev Hpos|response c|].
    + destruct (nextErr sends); [constructor|].
      unfold after. specialize (IH (tail sends)).
      destruct (serve server q (tail sends)) as [[r evs] sends'].
      now constructor.
    + destruct (nextErr sends), c; try constructor.
      unfold after. specialize (IH (tail sends)).
      destruct (serve server q (tail sends)) as [[r evs] sends'].
      now constructor.
    + constructor.
  - constructor.
Qed.

(** X9: every run of the loop reads as [answered] says: one reply per
    request, in order, the loop going on only after a send without
    error. *)
Theorem serve_answered q : forall sends,
  answered (serve server q sends).1.1 (serve server q sends).1.2.
Proof. exact_holds serve_answered_holds. Qed.

End Cases.

(** ** The handshake, case by case *)

Section Admission.
Variable server : udsServer.
Variable host : Host.

(** X10: when one of the calls that set the listener up fails, or the
    accept, or the file of the connection, [start] returns without
    having read or sent anything; the deadline of the listener counts
    only for a server whose [timeout] is set. *)
Theorem start_setup_failure :
  resolveUnixAddr host <> None
  \/ listenUnix host <> None
  \/ (timeout server = true /\ setDeadline host <> None)
  \/ acceptUnix host <> None
  \/ connFile host <> None ->
  start server host = (Ok tt, []).
Proof.
  unfold start. intros H.
  destruct (resolveUnixAddr host); [reflexivity|].
  destruct (listenUnix host); [reflexivity|].
  destruct (timeout server), (setDeadline host); try reflexivity;
    destruct (acceptUnix host); try reflexivity;
    destruct (connFile host); try reflexivity;
    exfalso; destruct H as [H|[H|[[H1 H]|[H|H]]]]; congruence.
Qed.

(** X11: when the first read of an accepted connection fails, [start]
    returns and nothing is sent. *)
Theorem first_read_error_closes e rest :
  accepted server host ->
  inbound host = inr e :: rest ->
  start server host = (Ok tt, [Read EmptyString (Some e)]).
Proof.
  intros Hacc Hin. rewrite (start_accepted _ _ Hacc).
  unfold session. now rewrite Hin.
Qed.

(** X12: a connect request whose name the validator does not entitle,
    the query having succeeded, is answered with one [/host_nak]; then
    [start] returns, and nothing more is read. *)
Theorem not_entitled_nak_then_closed msg rest hostname :
  accepted server host ->
  inbound host = inl msg :: rest ->
  strings.Contains (String.substring 0 udsBufSize msg) requestConnect = true ->
  named (String.substring 0 udsBufSize msg) hostname ->
  validateHost server (getPodResources host) hostname = (false, None) ->
  start server host
  = (Ok tt,
     [Read (String.substring 0 udsBufSize msg) None;
      Validate hostname;
      Sendmsg responseHostNak None (nextErr (sends host))]).
Proof.
  intros Hacc Hin Hc Hn Hv.
  rewrite (start_accepted _ _ Hacc), (session_cons _ _ _ _ _ Hin). cbn zeta.
  now rewrite (connect_named _ _ _ _ _ Hc Hn), Hv.
Qed.

(** X13: a connect request whose name the validator entitles is
    answered with [/host_ok], and the loop is entered on the records
    that follow, also when the send of [/host_ok] failed: the
    handshake does not look at the outcome of its sends. *)
Theorem entitled_ok_then_loop msg rest hostname :
  accepted server host ->
  inbound host = inl msg :: rest ->
  strings.Contains (String.substring 0 udsBufSize msg) requestConnect = true ->
  named (String.substring 0 udsBufSize msg) hostname ->
  validateHost server (getPodResources host) hostname = (true, None) ->
  start server host
  = (after [Read (String.substring 0 udsBufSize msg) None;
            Validate hostname;
            Sendmsg responseHostOk None (nextErr (sends host))]
       (serve server rest) (tail (sends host))).1.
Proof.
  intros Hacc Hin Hc Hn Hv.
  rewrite (start_accepted _ _ Hacc), (session_cons _ _ _ _ _ Hin). cbn zeta.
  now rewrite (connect_named _ _ _ _ _ Hc Hn), Hv.
Qed.

(** The runs of [start], by what the handshake does. *)
Lemma start_trace :
  start server host = (Ok tt, [])
  \/ start server host = (Blocked, [])
  \/ (exists e, start server host = (Ok tt, [Read EmptyString (Some e)]))
  \/ exists msg rest,
      inbound host = inl msg :: rest
      /\ ((exists r, start server host
                     = (r, [Read (String.substring 0 udsBufSize msg) None]))
          \/ exists hostname,
              named (String.substring 0 udsBufSize msg) hostname
              /\ ((exists errs,
                     (errs = [(responseHostNak, nextErr (sends host))]
                      \/ errs = [(responseError, nextErr (sends host));
                                 (responseHostNak, nextErr (tail (sends host)))])
                     /\ start server host
                        = (Ok tt,
                           Read (String.substring 0 udsBufSize msg) None
                             :: Validate hostname
                             :: map (fun re => Sendmsg re.1 None re.2) errs))
                  \/ (validateHost server (getPodResources host) hostname = (true, None)
                      /\ start server host
                         = (after [Read (String.substring 0 udsBufSize msg) None;
                                   Validate hostname;
                                   Sendmsg responseHostOk None (nextErr (sends host))]
                              (serve server rest) (tail (sends host))).1))).
Proof.
  destruct (start_cases server host) as [H|H]; [now left|]. rewrite H.
  destruct (inbound host) as [|[msg|e0] rest] eqn:Hin.
  - right; left. unfold session. now rewrite Hin.
  - do 3 right. exists msg, rest. split; [reflexivity|].
    rewrite (session_cons _ _ _ _ _ Hin). cbn zeta.
    set (request := String.substring 0 udsBufSize msg) in *.
    destruct (strings.Contains request requestConnect) eqn:Hc.
    2: { left. rewrite (connect_other _ _ _ _ Hc). eauto. }
    destruct (strings.Split request "," !! 1%nat) as [s1|] eqn:Hs1.
    2: { left. rewrite (connect_no_argument _ _ _ _ Hc Hs1). eauto. }
    assert (Hn : named request (strings.ReplaceAll s1 " " "")) by (exists s1; auto).
    right. exists (strings.ReplaceAll s1 " " ""). split; [exact Hn|].
    rewrite (connect_named _ _ _ _ _ Hc Hn).
    destruct (validateHost server (getPodResources host) _) as [[|] [e|]] eqn:Hv.
    + apply validateHost_true_no_error in Hv. discriminate Hv.
    + right. split; reflexivity.
    + left. exists [(responseError, nextErr (sends host));
                    (responseHostNak, nextErr (tail (sends host)))]. auto.
    + left. exists [(responseHostNak, nextErr (sends host))]. auto.
  - do 2 right; left. exists e0. unfold session. now rewrite Hin.
Qed.

End Admission.

(** ** What holds of every run *)

Section Runs.
Variable server : udsServer.

Lemma substring_length n s : (String.length (String.substring 0 n s) <= n)%nat.
Proof.
  revert s. induction n as [|n IH]; intros [|a s]; cbn; try lia.
  specialize (IH s). lia.
Qed.

Lemma validated_plain errs :
  validated (map (fun re : string * option error => Sendmsg re.1 None re.2) errs) = [].
Proof. induction errs as [|re errs IH]; [reflexivity | exact IH]. Qed.

Lemma requests_plain errs :
  requests (map (fun re : string * option error => Sendmsg re.1 None re.2) errs) = [].
Proof. induction errs as [|re errs IH]; [reflexivity | exact IH]. Qed.

Lemma answered_validated r evs : answered r evs -> validated evs = [].
Proof. induction 1; cbn; auto. Qed.

Lemma serve_requests q : forall sends,
  Forall (fun request => (String.length request <= udsBufSize)%nat)
    (requests (serve server q sends).1.2).
Proof.
  induction q as [|[msg|e] q IH]; intros sends.
  - constructor.
  - rewrite serve_cons. cbn zeta.
    pose proof (substring_length udsBufSize msg) as Hlen.
    assert (Hgo : forall response rights,
      Forall (fun request => (String.length request <= udsBufSize)%nat)
        (requests
           (after [Read (String.substring 0 udsBufSize msg) None;
                   Sendmsg response rights None]
              (serve server q) (tail sends)).1.2)).
    { intros response rights. unfold after. specialize (IH (tail sends)).
      destruct (serve server q (tail sends)) as [[r evs] sends'].
      cbn in *. now constructor. }
    destruct (handle_handled server (String.substring 0 udsBufSize msg) sends)
      as [iface fd Hfd Hn Hdev Hpos|response c|].
    + destruct (nextErr sends); [|apply Hgo].
      cbn [fst snd requests]. constructor; [exact Hlen | constructor].
    + destruct (nextErr sends), c; try apply Hgo;
        cbn [fst snd requests]; (constructor; [exact Hlen | constructor]).
    + cbn [fst snd requests]. constructor; [exact Hlen | constructor].
  - cbn. constructor; [cbn; lia | constructor].
Qed.

(** X14: in every run of [start] the validator is called at most once,
    and then on the name of the first request and before anything is
    sent: the first two events are the read of that request and the
    call. *)
Theorem validation_at_most_once host :
  validated (start server host).2 = []
  \/ exists msg rest hostname evs,
      inbound host = inl msg :: rest
      /\ named (String.substring 0 udsBufSize msg) hostname
      /\ (start server host).2
         = Read (String.substring 0 udsBufSize msg) None :: Validate hostname :: evs
      /\ validated (start server host).2 = [hostname].
Proof.
  destruct (start_trace server host)
    as [H|[H|[(e & H)|(msg & rest & Hin & [(r & H)|(hostname & Hn & [(errs & _ & H)|(Hv & H)])])]]];
    rewrite H; try (now left).
  - right. exists msg, rest, hostname, (map (fun re => Sendmsg re.1 None re.2) errs).
    repeat split; try assumption. cbn. now rewrite validated_plain.
  - right. unfold after.
    pose proof (serve_answered_holds server rest (tail (sends host))) as Hans.
    destruct (serve server rest (tail (sends host))) as [[r evs] sends'].
    exists msg, rest, hostname, (Sendmsg responseHostOk None (nextErr (sends host)) :: evs).
    cbn in Hans. apply answered_validated in Hans.
    repeat split; try assumption. cbn. now rewrite Hans.
Qed.

(** X15: every request that [start] handles has at most [udsBufSize]
    (64) bytes: what a record holds beyond them is dropped by the
    read. *)
Theorem requests_bounded host :
  Forall (fun request => (String.length request <= udsBufSize)%nat)
    (requests (start server host).2).
Proof.
  destruct (start_trace server host)
    as [H|[H|[(e & H)|(msg & rest & Hin & [(r & H)|(hostname & Hn & [(errs & _ & H)|(Hv & H)])])]]];
    rewrite H; cbn [snd requests]; try (constructor; fail).
  - constructor; [cbn; lia | constructor].
  - constructor; [apply substring_length | constructor].
  - rewrite requests_plain. constructor; [apply substring_length | constructor].
  - unfold after.
    pose proof (serve_requests rest (tail (sends host))) as Hreq.
    destruct (serve server rest (tail (sends host))) as [[r evs] sends'].
    cbn in *. constructor; [apply substring_length | exact Hreq].
Qed.

End Runs.

(** ** What a request can name *)

Section Names.
Import strings.

Lemma Contains_nil (c : Ascii.ascii) : Contains EmptyString (String c EmptyString) = false.
Proof. reflexivity. Qed.

Lemma Contains_cons a s (c : Ascii.ascii) :
  Contains (String a s) (String c EmptyString)
  = Ascii.eqb a c || Contains s (String c EmptyString).
Proof.
  cbn [Contains HasPrefix].
  destruct (Ascii.eqb a c); [now destruct s | reflexivity].
Qed.

Lemma pieces_cons (c : Ascii.ascii) a s cur :
  pieces (String c EmptyString) (String a s) O cur
  = if Ascii.eqb a c
    then String.rev cur :: pieces (String c EmptyString) s O EmptyString
    else pieces (String c EmptyString) s O (String a cur).
Proof.
  cbn [pieces HasPrefix String.length Nat.pred].
  destruct (Ascii.eqb a c); [now destruct s | reflexivity].
Qed.

Lemma Contains_rev_app cur s (d : Ascii.ascii) :
  Contains (String.rev_app cur s) (String d EmptyString)
  = Contains cur (String d EmptyString) || Contains s (String d EmptyString).
Proof.
  revert s. induction cur as [|a cur IH]; intros s.
  - reflexivity.
  - cbn [String.rev_app]. rewrite IH, !Contains_cons.
    now destruct (Ascii.eqb a d), (Contains cur _), (Contains s _).
Qed.

Lemma Contains_rev cur (d : Ascii.ascii) :
  Contains (String.rev cur) (String d EmptyString)
  = Contains cur (String d EmptyString).
Proof. unfold String.rev. rewrite Contains_rev_app. apply orb_false_r. Qed.

Lemma Contains_append s1 s2 (d : Ascii.ascii) :
  Contains (s1 +:+ s2) (String d EmptyString)
  = Contains s1 (String d EmptyString) || Contains s2 (String d EmptyString).
Proof.
  induction s1 as [|a s1 IH].
  - reflexivity.
  - change (String a s1 +:+ s2) with (String a (s1 +:+ s2)).
    rewrite !Contains_cons, IH. apply orb_assoc.
Qed.

(** The pieces between separators have no separator in them. *)
Lemma pieces_no_separator (c : Ascii.ascii) s : forall cur,
  Contains cur (String c EmptyString) = false ->
  Forall (fun piece => Contains piece (String c EmptyString) = false)
    (pieces (String c EmptyString) s O cur).
Proof.
  induction s as [|a s IH]; intros cur Hcur.
  - cbn. constructor; [now rewrite Contains_rev | constructor].
  - rewrite pieces_cons. destruct (Ascii.eqb a c) eqn:Hac.
    + constructor; [now rewrite Contains_rev | now apply IH].
    + apply IH. now rewrite Contains_cons, Hac.
Qed.

(** A byte that the string does not have is in none of its pieces. *)
Lemma pieces_keep_free (c d : Ascii.ascii) s : forall cur,
  Contains s (String d EmptyString) = false ->
  Contains cur (String d EmptyString) = false ->
  Forall (fun piece => Contains piece (String d EmptyString) = false)
    (pieces (String c EmptyString) s O cur).
Proof.
  induction s as [|a s IH]; intros cur Hs Hcur.
  - cbn. constructor; [now rewrite Contains_rev | constructor].
  - rewrite Contains_cons in Hs. apply orb_false_iff in Hs as [Had Hs].
    rewrite pieces_cons. destruct (Ascii.eqb a c).
    + constructor; [now rewrite Contains_rev | now apply IH].
    + apply IH; [exact Hs|]. now rewrite Contains_cons, Had.
Qed.

Lemma Join_free (d : Ascii.ascii) l :
  Forall (fun piece => Contains piece (String d EmptyString) = false) l ->
  Contains (Join l EmptyString) (String d EmptyString) = false.
Proof.
  induction 1 as [|piece l Hpiece Hl IH]; [reflexivity|].
  destruct l as [|piece' l]; [exact Hpiece|].
  change (Join (piece :: piece' :: l) EmptyString)
    with (piece +:+ (EmptyString +:+ Join (piece' :: l) EmptyString)).
  change (EmptyString +:+ Join (piece' :: l) EmptyString)
    with (Join (piece' :: l) EmptyString).
  now rewrite Contains_append, Hpiece, IH.
Qed.

Lemma named_without_space_or_comma_holds request name :
  named request name ->
  Contains name " " = false /\ Contains name "," = false.
Proof.
  intros (s1 & Hs1 & ->). unfold ReplaceAll, Split.
  assert (Hcomma : Contains s1 "," = false).
  { apply list_elem_of_lookup_2 in Hs1.
    pose proof (pieces_no_separator _ request EmptyString
                  (eq_refl : Contains EmptyString "," = false)) as Hall.
    rewrite Forall_forall in Hall. now apply Hall. }
  split; apply Join_free.
  - apply pieces_no_separator. reflexivity.
  - apply pieces_keep_free; [exact Hcomma | reflexivity].
Qed.

(** X16: the name that [start] and [handleXskRequest] take from a
    request has no space and no comma in it. *)
Theorem named_without_space_or_comma request name :
  named request name ->
  Contains name " " = false /\ Contains name "," = false.
Proof. exact_holds named_without_space_or_comma_holds. Qed.

End Names.

(** ** How long a name can be *)

Section Lengths.
Import strings.

Lemma length_rev_app cur s :
  String.length (String.rev_app cur s) = (String.length cur + String.length s)%nat.
Proof.
  revert s. induction cur as [|a cur IH]; intros s; [reflexivity|].
  cbn [String.rev_app]. rewrite IH. cbn. lia.
Qed.

Lemma length_rev cur : String.length (String.rev cur) = String.length cur.
Proof. unfold String.rev. rewrite length_rev_app. cbn. lia. Qed.

Lemma length_append s1 s2 :
  String.length (s1 +:+ s2) = (String.length s1 + String.length s2)%nat.
Proof.
  induction s1 as [|a s1 IH]; [reflexivity|].
  change (String a s1 +:+ s2) with (String a (s1 +:+ s2)). cbn. now rewrite IH.
Qed.

(** The bytes of a string are those of its pieces and one separator
    between two pieces. *)
Lemma pieces_length (c : Ascii.ascii) s : forall cur,
  (sum_list_with String.length (pieces (String c EmptyString) s O cur)
   + length (pieces (String c EmptyString) s O cur)
   = String.length cur + String.length s + 1)%nat.
Proof.
  induction s as [|a s IH]; intros cur.
  - cbn. rewrite length_rev. lia.
  - rewrite pieces_cons. destruct (Ascii.eqb a c).
    + cbn [sum_list_with length]. rewrite length_rev.
      specialize (IH EmptyString). cbn in *. lia.
    + rewrite IH. cbn. lia.
Qed.

Lemma pieces_nonempty (c : Ascii.ascii) s : forall cur,
  (1 <= length (pieces (String c EmptyString) s O cur))%nat.
Proof.
  induction s as [|a s IH]; intros cur.
  - cbn. lia.
  - rewrite pieces_cons. destruct (Ascii.eqb a c); [cbn; lia | apply IH].
Qed.

Lemma lookup_second_length (l : list string) s1 :
  l !! 1%nat = Some s1 ->
  (String.length s1 + 2 <= sum_list_with String.length l + length l)%nat.
Proof.
  destruct l as [|s0 [|s1' l]]; try discriminate.
  intros [= ->]. cbn. lia.
Qed.

Lemma Join_length l :
  String.length (Join l EmptyString) = sum_list_with String.length l.
Proof.
  induction l as [|piece l IH]; [reflexivity|].
  destruct l as [|piece' l]; [cbn; lia|].
  change (Join (piece :: piece' :: l) EmptyString)
    with (piece +:+ Join (piece' :: l) EmptyString).
  rewrite length_append, IH. reflexivity.
Qed.

Lemma named_shorter_holds request name :
  named request name -> (String.length name < String.length request)%nat.
Proof.
  intros (s1 & Hs1 & ->). unfold ReplaceAll, Split in *.
  apply lookup_second_length in Hs1.
  pose proof (pieces_length ","%char request EmptyString) as Hreq.
  pose proof (pieces_length " "%char s1 EmptyString) as Hs.
  pose proof (pieces_nonempty " "%char s1 EmptyString) as Hne.
  rewrite Join_length. change (String.length EmptyString) with O in *. lia.
Qed.

(** X17: the name taken from a request is shorter than the request:
    at least the comma before it is not part of it. *)
Theorem named_shorter request name :
  named request name -> (String.length name < String.length request)%nat.
Proof. exact_holds named_shorter_holds. Qed.

End Lengths.

(** ** Names that no request reaches *)

Section Unreachable.
Variable server : udsServer.
Variable dev : string.
Variable fd : Z.

Lemma handle_unreachable request sends :
  (forall name, named request name -> name <> dev) ->
  handle (AddDevice server dev fd) request sends = handle server request sends.
Proof.
  intros Hne.
  assert (Hx : forall s,
    handleXskRequest (AddDevice server dev fd) request s
    = handleXskRequest server request s).
  { intros s. unfold handleXskRequest. cbn zeta.
    destruct (strings.Split request "," !! 1%nat) as [s1|] eqn:Hs1.
    - rewrite !(bind_run _ _ _ _ _ _ (index_run _ _ _ _ Hs1)).
      cbn [devices AddDevice].
      rewrite lookup_insert_ne; [reflexivity|].
      intros Heq. apply (Hne (strings.ReplaceAll s1 " " "")); [|now symmetry].
      exists s1. auto.
    - now rewrite !(bind_panic _ _ _ _ _ (index_panic _ _ s Hs1)). }
  unfold handle.
  destruct (strings.Contains request requestFd); [|reflexivity].
  unfold bind. now rewrite Hx.
Qed.

(** X18: a device registered under a name that has a space or a comma
    in it, or that has [udsBufSize] (64) bytes or more, is out of
    reach: every run of the authenticated loop is what it is without
    that registration, so its descriptor is never sent on account of
    its name. *)
Theorem device_out_of_reach q :
  strings.Contains dev " " = true
  \/ strings.Contains dev "," = true
  \/ (udsBufSize <= String.length dev)%nat ->
  forall sends,
    serve (AddDevice server dev fd) q sends = serve server q sends.
Proof.
  intros Hdev. induction q as [|[msg|e] q IH]; intros sends; try reflexivity.
  rewrite !serve_cons. cbn zeta.
  rewrite handle_unreachable.
  - destruct (handle server _ sends) as [[[[[e|] [|]]| |] evs] sends']; try reflexivity.
    unfold after. now rewrite IH.
  - intros name Hn ->.
    pose proof (named_without_space_or_comma_holds _ _ Hn) as [Hs Hc].
    pose proof (named_shorter_holds _ _ Hn) as Hlt.
    pose proof (substring_length udsBufSize msg) as Hle.
    destruct Hdev as [H|[H|H]]; [congruence | congruence | lia].
Qed.

End Unreachable.

(** ** What is sent *)

Section Vocabulary.
Variable server : udsServer.

Ltac in_list :=
  cbn [fst snd];
  repeat first [ apply elem_of_cons; left; reflexivity
               | apply elem_of_cons; right ].

Lemma replies_app evs evs' : replies (evs ++ evs') = replies evs ++ replies evs'.
Proof.
  induction evs as [|[] evs IH]; cbn; rewrite ?IH; reflexivity.
Qed.

Lemma handle_no_argument request sends :
  strings.Contains request requestFd = true ->
  strings.Split request "," !! 1%nat = None ->
  handle server request sends = (Panic, [], sends).
Proof.
  intros Hfd Hs. unfold handle. rewrite Hfd. unfold handleXskRequest.
  now rewrite (bind_panic _ _ _ _ _ (bind_panic _ _ _ _ _ (index_panic _ _ sends Hs))).
Qed.

Lemma handle_replies request sends :
  Forall (fun rr : string * option Z =>
            rr.1 ∈ [responseFdAck; responseFdNak; handshakeVersion;
                    responseFinAck; responseBadRequest])
    (replies (handle server request sends).1.2).
Proof.
  destruct (strings.Contains request requestFd) eqn:Hfd.
  - destruct (strings.Split request "," !! 1%nat) as [s1|] eqn:Hs1.
    + assert (Hn : named request (strings.ReplaceAll s1 " " "")) by (exists s1; auto).
      rewrite (handle_fd _ _ _ _ Hfd Hn).
      destruct (devices server !! _); cbn [fst snd replies];
        (constructor; [in_list | constructor]).
    + rewrite (handle_no_argument _ _ Hfd Hs1). constructor.
  - rewrite (handle_other _ _ _ Hfd). cbn [fst snd replies].
    constructor; [|constructor].
    repeat case_bool_decide; in_list.
Qed.

Lemma serve_replies q : forall sends,
  Forall (fun rr : string * option Z =>
            rr.1 ∈ [responseFdAck; responseFdNak; handshakeVersion;
                    responseFinAck; responseBadRequest])
    (replies (serve server q sends).1.2).
Proof.
  induction q as [|[msg|e] q IH]; intros sends; try constructor.
  rewrite serve_cons. cbn zeta.
  pose proof (handle_replies (String.substring 0 udsBufSize msg) sends) as Hh.
  destruct (handle server _ sends) as [[[[[e|] [|]]| |] evs] sends'];
    cbn [fst snd replies] in *; try exact Hh.
  unfold after. specialize (IH sends').
  destruct (serve server q sends') as [[r evs'] sends''].
  cbn [fst snd replies] in *. rewrite replies_app.
  apply Forall_app. split; assumption.
Qed.

(** X19: the server answers with its fixed tokens only: every reply of
    every run of [start] is one of [/error], [/host_ok], [/host_nak],
    [/fd_ack], [/fd_nak], ["0.1"], [/fin_ack] and [/nak]; nothing of
    what the peer sent is sent back. *)
Theorem replies_are_tokens host :
  Forall (fun rr : string * option Z =>
            rr.1 ∈ [responseError; responseHostOk; responseHostNak;
                    responseFdAck; responseFdNak; handshakeVersion;
                    responseFinAck; responseBadRequest])
    (replies (start server host).2).
Proof.
  destruct (start_trace server host)
    as [H|[H|[(e & H)|(msg & rest & Hin & [(r & H)|(hostname & Hn & [(errs & Herrs & H)|(Hv & H)])])]]];
    rewrite H; cbn [snd replies]; try constructor.
  - destruct Herrs as [-> | ->]; cbn [map replies fst snd];
      repeat (constructor; [in_list|]); constructor.
  - unfold after.
    pose proof (serve_replies rest (tail (sends host))) as Hs.
    destruct (serve server rest (tail (sends host))) as [[r evs] sends'].
    cbn [fst snd replies app] in *.
    constructor; [in_list|].
    eapply Forall_impl; [exact Hs|].
    intros rr Hrr. cbn beta in *. do 3 (apply elem_of_cons; right). exact Hrr.
Qed.

Lemma host_ok_only_when_entitled_holds host rights :
  (responseHostOk, rights) ∈ replies (start server host).2 ->
  exists msg rest hostname,
    inbound host = inl msg :: rest
    /\ strings.Contains (String.substring 0 udsBufSize msg) "," = true
    /\ named (String.substring 0 udsBufSize msg) hostname
    /\ validateHost server (getPodResources host) hostname = (true, None).
Proof.
  assert (Hcomma : forall request name,
            named request name -> strings.Contains request "," = true).
  { intros request name (s1 & Hs1 & _).
    destruct (strings.Contains request ",") eqn:Hc; [reflexivity|].
    rewrite (Split_no_second _ _ Hc) in Hs1. discriminate Hs1. }
  destruct (start_trace server host)
    as [H|[H|[(e & H)|(msg & rest & Hin & [(r & H)|(hostname & Hn & [(errs & Herrs & H)|(Hv & H)])])]]];
    rewrite H; cbn [snd replies]; intros Hin';
    try (now apply elem_of_nil in Hin').
  - exfalso. destruct Herrs as [-> | ->]; cbn [map replies fst snd] in Hin';
      repeat (apply elem_of_cons in Hin' as [[=]|Hin']);
      now apply elem_of_nil in Hin'.
  - exists msg, rest, hostname. eauto.
Qed.

(** X20: [/host_ok] is sent only to a peer whose first request names a
    host that the validator entitles. *)
Theorem host_ok_only_when_entitled host rights :
  (responseHostOk, rights) ∈ replies (start server host).2 ->
  exists msg rest hostname,
    inbound host = inl msg :: rest
    /\ strings.Contains (String.substring 0 udsBufSize msg) "," = true
    /\ named (String.substring 0 udsBufSize msg) hostname
    /\ validateHost server (getPodResources host) hostname = (true, None).
Proof. exact_holds host_ok_only_when_entitled_holds. Qed.

Lemma rights_only_when_entitled host response fd :
  (response, Some fd) ∈ replies (start server host).2 ->
  exists hostname,
    validateHost server (getPodResources host) hostname = (true, None).
Proof.
  destruct (start_trace server host)
    as [H|[H|[(e & H)|(msg & rest & Hin & [(r & H)|(hostname & Hn & [(errs & Herrs & H)|(Hv & H)])])]]];
    rewrite H; cbn [snd replies]; intros Hin';
    try (now apply elem_of_nil in Hin').
  - exfalso. destruct Herrs as [-> | ->]; cbn [map replies fst snd] in Hin';
      repeat (apply elem_of_cons in Hin' as [[=]|Hin']);
      now apply elem_of_nil in Hin'.
  - eauto.
Qed.

End Vocabulary.

(** ** A server as it is created *)

(** X21: [CreateUdsServer] returns the path that the generator
    returned, as the socket of a server of the resource type given,
    without deadline and with an empty registry; as long as no device
    is added that server entitles nobody, so that no run of it sends
    [/host_ok] or a descriptor. *)
Theorem CreateUdsServer_fresh deviceType0 turns evs server path :
  CreateUdsServer deviceType0 turns = (evs, Some (server, path)) ->
  generateSocketPath turns = (evs, Some path)
  /\ socket server = path
  /\ deviceType server = deviceType0
  /\ timeout server = false
  /\ devices server = ∅
  /\ forall host response rights,
       (response, rights) ∈ replies (start server host).2 ->
       response <> responseHostOk /\ rights = None.
Proof.
  unfold CreateUdsServer.
  destruct (generateSocketPath turns) as [evs' [path'|]]; [|discriminate].
  intros [= <- <- <-].
  set (server := {| socket := path'; timeout := false;
                    deviceType := deviceType0; devices := ∅ |}).
  repeat split; try reflexivity.
  - intros ->.
    apply host_ok_only_when_entitled_holds in H as (msg & rest & hostname & _ & _ & _ & Hv).
    pose proof (validateHost_empty_registry_holds server (getPodResources host) hostname eq_refl) as Hno.
    now rewrite Hv in Hno.
  - destruct rights as [fd|]; [exfalso|reflexivity].
    apply rights_only_when_entitled in H as (hostname & Hv).
    pose proof (validateHost_empty_registry_holds server (getPodResources host) hostname eq_refl) as Hno.
    now rewrite Hv in Hno.
Qed.

(** ** A registered device is served *)

Section Served.
Import strings.

Lemma HasPrefix_append p t : HasPrefix (p +:+ t) p = true.
Proof.
  induction p as [|a p IH]; [now destruct t|].
  change (String a p +:+ t) with (String a (p +:+ t)).
  cbn [HasPrefix]. now rewrite Ascii.eqb_refl.
Qed.

Lemma Contains_append_prefix p t : Contains (p +:+ t) p = true.
Proof.
  pose proof (HasPrefix_append p t) as H.
  destruct (p +:+ t); cbn [Contains]; now rewrite H.
Qed.

(** Up to the first separator the string is the first piece. *)
Lemma pieces_append (c : Ascii.ascii) a t : forall cur,
  Contains a (String c EmptyString) = false ->
  pieces (String c EmptyString) (a +:+ String c t) O cur
  = String.rev_app cur a :: pieces (String c EmptyString) t O EmptyString.
Proof.
  induction a as [|a0 a IH]; intros cur Ha.
  - change (EmptyString +:+ String c t) with (String c t).
    rewrite pieces_cons, Ascii.eqb_refl. reflexivity.
  - change (String a0 a +:+ String c t) with (String a0 (a +:+ String c t)).
    rewrite Contains_cons in Ha. apply orb_false_iff in Ha as [Ha0 Ha].
    rewrite pieces_cons, Ha0. now rewrite IH.
Qed.

Lemma substring_all s : forall n,
  (String.length s <= n)%nat -> String.substring 0 n s = s.
Proof.
  induction s as [|a s IH]; intros [|n] Hn; cbn in *; try reflexivity; try lia.
  rewrite IH by lia. reflexivity.
Qed.

(** The request that the protocol writes for an interface names it. *)
Lemma named_fd_request dev :
  Contains dev " " = false ->
  Contains dev "," = false ->
  named (requestFd +:+ ", " +:+ dev) dev.
Proof.
  intros Hspace Hcomma. exists (" " +:+ dev). split.
  - unfold Split.
    change (requestFd +:+ ", " +:+ dev) with (requestFd +:+ String "," (" " +:+ dev)).
    rewrite pieces_append by reflexivity.
    rewrite pieces_no_sep; [reflexivity|].
    change (" " +:+ dev) with (String " " dev).
    now rewrite Contains_cons, Hcomma.
  - unfold ReplaceAll, Split.
    change (" " +:+ dev) with (EmptyString +:+ String " " dev).
    rewrite pieces_append by reflexivity.
    now rewrite pieces_no_sep.
Qed.

(** X22: a device registered under a name without space and comma,
    with a positive descriptor that fits the 32 bits of the control
    message (less than 2^31), is served: in the authenticated loop
    the request [/xsk_map_fd, <name>], when it fits the buffer, is
    answered with [/fd_ack] carrying the descriptor registered last
    under that name. *)
Theorem registered_device_served server dev fd q sends :
  Contains dev " " = false ->
  Contains dev "," = false ->
  (String.length dev + 13 <= udsBufSize)%nat ->
  0 < fd ->
  fd < 2 ^ 31 ->
  serve (AddDevice server dev fd) (inl (requestFd +:+ ", " +:+ dev) :: q) sends
  = match nextErr sends with
    | None =>
        after [Read (requestFd +:+ ", " +:+ dev) None;
               Sendmsg responseFdAck (Some fd) None]
          (serve (AddDevice server dev fd) q) (tail sends)
    | Some e =>
        (Ok tt,
         [Read (requestFd +:+ ", " +:+ dev) None;
          Sendmsg responseFdAck (Some fd) (Some e)],
         tail sends)
    end.
Proof.
  intros Hspace Hcomma Hlen Hpos Hlt.
  rewrite serve_cons. cbn zeta.
  rewrite substring_all.
  2: { rewrite !length_append. cbn. lia. }
  rewrite (handle_fd _ _ dev).
  - cbn [devices AddDevice]. rewrite lookup_insert_eq.
    rewrite (UnixRights_small fd Hpos Hlt).
    apply Z.ltb_lt in Hpos. rewrite Hpos. now destruct (nextErr sends).
  - apply Contains_append_prefix.
  - now apply named_fd_request.
Qed.

End Served.

(** ** The further properties on concrete runs *)

Lemma validateHost_empty_registry_witness :
  devices (exampleServer []) = ∅
  /\ (validateHost (exampleServer []) (inl (exampleTable [])) "podA").1 = false.
Proof.
  split; [reflexivity|].
  exact (validateHost_empty_registry (exampleServer []) (inl (exampleTable [])) "podA"
           eq_refl).
Defined.

Lemma validateHost_full_match_witness :
  validateHost (exampleServer [("eth1", 7); ("eth2", 8)])
    (inl (exampleTable ["eth2"; "eth1"])) "podA" = (true, None).
Proof.
  refine (validateHost_full_match (exampleServer [("eth1", 7); ("eth2", 8)])
            (exampleTable ["eth2"; "eth1"]) "podA"
            {| GetName := "podA"; GetNamespace := "default";
               GetContainers :=
                 [ {| GetContainerName := "app";
                      GetDevices := [ {| GetResourceName := "net";
                                         GetDeviceIds := ["eth2"; "eth1"] |} ] |} ] |}
            {| GetContainerName := "app";
               GetDevices := [ {| GetResourceName := "net";
                                  GetDeviceIds := ["eth2"; "eth1"] |} ] |}
            {| GetResourceName := "net"; GetDeviceIds := ["eth2"; "eth1"] |}
            _ _ _ _ _ _ _).
  - vm_compute. reflexivity.
  - apply elem_of_cons. left. reflexivity.
  - apply elem_of_cons. left. reflexivity.
  - reflexivity.
  - vm_compute. reflexivity.
  - discriminate.
  - repeat constructor; eexists; vm_compute; reflexivity.
Defined.

Lemma validateHost_last_pod_of_name_witness :
  validateHost (exampleServer [("eth1", 7)])
    (inl {| GetPodResources :=
              [ {| GetName := "podA"; GetNamespace := "other"; GetContainers := [] |} ]
              ++ {| GetName := "podA"; GetNamespace := "default"; GetContainers := [] |}
              :: [] |}) "podA"
  = validateHost (exampleServer [("eth1", 7)])
      (inl {| GetPodResources :=
                [ {| GetName := "podA"; GetNamespace := "default"; GetContainers := [] |} ] |})
      "podA".
Proof.
  refine (validateHost_last_pod_of_name (exampleServer [("eth1", 7)])
            [ {| GetName := "podA"; GetNamespace := "other"; GetContainers := [] |} ]
            {| GetName := "podA"; GetNamespace := "default"; GetContainers := [] |}
            [] _).
  cbn. intros H. now apply elem_of_nil in H.
Defined.

Lemma version_answered_witness :
  serve (exampleServer [("eth1", 7)]) [inl "/version"; inl "/fin"] []
  = after [Read "/version" None; Sendmsg "0.1" None None]
      (serve (exampleServer [("eth1", 7)]) [inl "/fin"]) [].
Proof.
  exact (version_answered (exampleServer [("eth1", 7)]) "/version" [inl "/fin"] []
           eq_refl eq_refl).
Defined.

Lemma bad_request_answered_witness :
  serve (exampleServer [("eth1", 7)]) [inl "/version "; inl "/fin"] []
  = after [Read "/version " None; Sendmsg "/nak" None None]
      (serve (exampleServer [("eth1", 7)]) [inl "/fin"]) [].
Proof.
  refine (bad_request_answered (exampleServer [("eth1", 7)]) "/version " [inl "/fin"] []
            eq_refl _ _ eq_refl); discriminate.
Defined.

Lemma start_setup_failure_witness :
  start (exampleServer [("eth1", 7)])
    {| resolveUnixAddr := None; listenUnix := Some ErrOther; setDeadline := None;
       acceptUnix := None; connFile := None;
       getPodResources := inl (exampleTable ["eth1"]);
       inbound := [inl "/connect, podA"]; sends := [] |}
  = (Ok tt, []).
Proof.
  refine (start_setup_failure (exampleServer [("eth1", 7)]) _ _).
  right; left. discriminate.
Defined.

Lemma first_read_error_closes_witness :
  start (exampleServer [("eth1", 7)])
    (exampleHost (inl (exampleTable ["eth1"])) [inr ErrTimeout; inl "/connect, podA"])
  = (Ok tt, [Read EmptyString (Some ErrTimeout)]).
Proof.
  refine (first_read_error_closes (exampleServer [("eth1", 7)])
            (exampleHost (inl (exampleTable ["eth1"]))
               [inr ErrTimeout; inl "/connect, podA"]) ErrTimeout
            [inl "/connect, podA"] _ eq_refl).
  repeat split; reflexivity.
Defined.

Lemma not_entitled_nak_then_closed_witness :
  start (exampleServer [("eth1", 7)])
    (exampleHost (inl (exampleTable ["eth1"])) [inl "/connect, podB"; inl "/version"])
  = (Ok tt,
     [Read "/connect, podB" None; Validate "podB"; Sendmsg "/host_nak" None None]).
Proof.
  refine (not_entitled_nak_then_closed (exampleServer [("eth1", 7)])
            (exampleHost (inl (exampleTable ["eth1"]))
               [inl "/connect, podB"; inl "/version"])
            "/connect, podB" [inl "/version"] "podB" _ eq_refl eq_refl
            (ex_intro _ " podB" (conj eq_refl eq_refl)) _).
  - repeat split; reflexivity.
  - vm_compute. reflexivity.
Defined.

Lemma entitled_ok_then_loop_witness :
  start (exampleServer [("eth1", 7)])
    (exampleHost (inl (exampleTable ["eth1"])) [inl "/connect, podA"; inl "/fin"])
  = (after [Read "/connect, podA" None; Validate "podA"; Sendmsg "/host_ok" None None]
       (serve (exampleServer [("eth1", 7)]) [inl "/fin"]) []).1.
Proof.
  refine (entitled_ok_then_loop (exampleServer [("eth1", 7)])
            (exampleHost (inl (exampleTable ["eth1"])) [inl "/connect, podA"; inl "/fin"])
            "/connect, podA" [inl "/fin"] "podA" _ eq_refl eq_refl
            (ex_intro _ " podA" (conj eq_refl eq_refl)) _).
  - repeat split; reflexivity.
  - vm_compute. reflexivity.
Defined.

Lemma named_without_space_or_comma_witness :
  named "/connect, pod A ,x" "podA"
  /\ strings.Contains "podA" " " = false /\ strings.Contains "podA" "," = false.
Proof.
  assert (Hn : named "/connect, pod A ,x" "podA")
    by exact (ex_intro _ " pod A " (conj eq_refl eq_refl)).
  split; [exact Hn|].
  exact (named_without_space_or_comma _ _ Hn).
Defined.

Lemma named_shorter_witness :
  (String.length "eth1" < String.length "/xsk_map_fd, eth1")%nat.
Proof.
  exact (named_shorter "/xsk_map_fd, eth1" "eth1"
           (ex_intro _ " eth1" (conj eq_refl eq_refl))).
Defined.

Lemma device_out_of_reach_witness :
  serve (AddDevice (exampleServer [("eth1", 7)]) "eth 2" 8)
    [inl "/xsk_map_fd, eth 2"] []
  = serve (exampleServer [("eth1", 7)]) [inl "/xsk_map_fd, eth 2"] [].
Proof.
  exact (device_out_of_reach (exampleServer [("eth1", 7)]) "eth 2" 8
           [inl "/xsk_map_fd, eth 2"] (or_introl eq_refl) []).
Defined.

Lemma host_ok_only_when_entitled_witness :
  exists msg rest hostname,
    inbound (exampleHost (inl (exampleTable ["eth1"])) [inl "/connect, podA"])
    = inl msg :: rest
    /\ strings.Contains (String.substring 0 udsBufSize msg) "," = true
    /\ named (String.substring 0 udsBufSize msg) hostname
    /\ validateHost (exampleServer [("eth1", 7)])
         (getPodResources (exampleHost (inl (exampleTable ["eth1"])) [inl "/connect, podA"]))
         hostname = (true, None).
Proof.
  refine (host_ok_only_when_entitled (exampleServer [("eth1", 7)])
            (exampleHost (inl (exampleTable ["eth1"])) [inl "/connect, podA"]) None _).
  vm_compute. apply elem_of_cons. left. reflexivity.
Defined.

Lemma CreateUdsServer_fresh_witness :
  socket {| socket := "/tmp/6ba7b810-9dad-41d1-80b4-00c04fd430c8.sock";
            timeout := false; deviceType := "net"; devices := ∅ |}
  = "/tmp/6ba7b810-9dad-41d1-80b4-00c04fd430c8.sock"
  /\ forall host response rights,
       (response, rights)
         ∈ replies (start {| socket := "/tmp/6ba7b810-9dad-41d1-80b4-00c04fd430c8.sock";
                             timeout := false; deviceType := "net"; devices := ∅ |}
                      host).2 ->
       response <> responseHostOk /\ rights = None.
Proof.
  pose proof (CreateUdsServer_fresh "net"
                [ {| NewV4 := ("6ba7b810-9dad-41d1-80b4-00c04fd430c8", None);
                     IsNotExist := fun _ => true |} ]
                _ _ _ eq_refl) as (_ & Hsock & _ & _ & _ & Hrun).
  split; [exact Hsock | exact Hrun].
Defined.

Lemma registered_device_served_witness :
  serve (AddDevice (exampleServer []) "eth1" 7) [inl "/xsk_map_fd, eth1"] []
  = after [Read "/xsk_map_fd, eth1" None; Sendmsg "/fd_ack" (Some 7) None]
      (serve (AddDevice (exampleServer []) "eth1" 7) []) [].
Proof.
  refine (registered_device_served (exampleServer []) "eth1" 7 [] []
            eq_refl eq_refl _ _ _).
  - vm_compute. lia.
  - lia.
  - lia.
Defined.
